(** * Golf Solitaire: a shallow embedding of [solitaire.py]

    The engine class [Solitaire] keeps three Python lists ([tableau],
    [waste], [stock]) and a [Deck].  Its methods read and mutate these
    attributes and may raise [IndexError]; they are embedded here in a small
    state-and-exception monad over a record holding the four attributes.
    Python lists are Rocq lists in the same order (index 0 first, the
    element returned by [pop()] last). *)

From Stdlib Require Import ZArith Lia List Ascii.
From stdpp Require Import base option list strings pretty.

Local Open Scope Z_scope.

(** ** Cards *)

(** Modelled from the spec: the [cards] module ([Card], [Deck]) is imported
    by [solitaire.py] but is not part of the sources.  A card is an immutable
    value with a suit (one of four) and a rank that is an integer, or [None]
    for the no-rank sentinel; two cards are equal iff suit and rank match. *)
Inductive Suit : Type := Spades | Hearts | Diamonds | Clubs.

(** Modelled from the spec: the attributes [suit] and [rank] of a [Card] of
    the absent [cards] module; [rank] is [None] for a card without rank. *)
Record Card : Type := mkCard { suit : Suit; rank : option Z }.

#[global] Instance Suit_eq_dec : EqDecision Suit.
Proof. solve_decision. Defined.

#[global] Instance Card_eq_dec : EqDecision Card.
Proof. solve_decision. Defined.

(** Modelled from the spec: [card == other] of the absent [Card] class,
    true iff suit and rank match. *)
Definition card_eqb (a b : Card) : bool := bool_decide (a = b).

(** [x == other.rank] for an integer [x]: an integer never equals [None]. *)
Definition int_eq_rank (x : Z) (r : option Z) : bool :=
  match r with
  | Some y => x =? y
  | None => false
  end.

(** ** Python list primitives *)

Inductive exn : Type :=
| IndexError      (* list index out of range, pop from empty list *)
| EmptyDeck       (* dealing from an exhausted deck *)
| OutOfFuel.      (* artefact of the model: a loop ran out of fuel *)

Inductive outcome (A : Type) : Type :=
| Ok (a : A)
| Raise (e : exn).
Arguments Ok {A} a.
Arguments Raise {A} e.

(** The position a Python subscript [k] denotes in a list of length [n]:
    [0 <= k < n] is itself, [-n <= k < 0] counts from the end, anything else
    is out of range. *)
Definition py_index (n : nat) (k : Z) : option nat :=
  if (0 <=? k) && (k <? Z.of_nat n) then Some (Z.to_nat k)
  else if (- Z.of_nat n <=? k) && (k <? 0) then Some (Z.to_nat (Z.of_nat n + k))
  else None.

(** [l[k]] *)
Definition py_getitem {A} (l : list A) (k : Z) : outcome A :=
  match py_index (length l) k with
  | Some i =>
      match l !! i with
      | Some x => Ok x
      | None => Raise IndexError
      end
  | None => Raise IndexError
  end.

(** [l.pop()]: the removed last element and what is left of the list. *)
Definition py_pop {A} (l : list A) : outcome (A * list A) :=
  match last l with
  | Some x => Ok (x, removelast l)
  | None => Raise IndexError
  end.

(** [len(l)] as a Python integer. *)
Definition len {A} (l : list A) : Z := Z.of_nat (length l).

(** ** Engine state and the monad of its methods *)

Record Solitaire : Type := mkSolitaire {
  deck : list Card;            (* cards still in the deck, next to deal first *)
  tableau : list (list Card);
  waste : list Card;
  stock : list Card
}.

(** A method body: from the object's state to what it returns or raises,
    and the state it leaves behind (also when it raises). *)
Definition M (A : Type) : Type := Solitaire -> outcome A * Solitaire.

#[global] Instance M_ret : MRet M := fun A a s => (Ok a, s).

#[global] Instance M_bind : MBind M := fun A B f m s =>
  match m s with
  | (Ok a, s') => f a s'
  | (Raise e, s') => (Raise e, s')
  end.

(** Lifting a list primitive that may raise. *)
Definition lift {A} (o : outcome A) : M A := fun s => (o, s).

Definition raise {A} (e : exn) : M A := fun s => (Raise e, s).

(** Attribute reads and writes. *)
Definition get_deck : M (list Card) := fun s => (Ok (deck s), s).
Definition get_tableau : M (list (list Card)) := fun s => (Ok (tableau s), s).
Definition get_waste : M (list Card) := fun s => (Ok (waste s), s).
Definition get_stock : M (list Card) := fun s => (Ok (stock s), s).

Definition set_deck (d : list Card) : M unit :=
  fun s => (Ok tt, mkSolitaire d (tableau s) (waste s) (stock s)).
Definition set_tableau (t : list (list Card)) : M unit :=
  fun s => (Ok tt, mkSolitaire (deck s) t (waste s) (stock s)).
Definition set_waste (w : list Card) : M unit :=
  fun s => (Ok tt, mkSolitaire (deck s) (tableau s) w (stock s)).
Definition set_stock (k : list Card) : M unit :=
  fun s => (Ok tt, mkSolitaire (deck s) (tableau s) (waste s) k).

(** [self.waste.append(card)] *)
Definition waste_append (card : Card) : M unit :=
  w ← get_waste; set_waste (w ++ [card]).

(** [self.stock.append(card)] *)
Definition stock_append (card : Card) : M unit :=
  k ← get_stock; set_stock (k ++ [card]).

(** [self.tableau.append(column)] *)
Definition tableau_append (column : list Card) : M unit :=
  t ← get_tableau; set_tableau (t ++ [column]).

(** [self.waste[-1]] *)
Definition waste_top : M Card :=
  w ← get_waste; lift (py_getitem w (-1)).

(** ** The methods of [Solitaire] *)

(** The [for i in self.tableau] loop of [can_move], for a card whose rank
    is the integer [r]; the first column whose last card equals [card]
    decides, and falling out of the loop gives [False]. *)
Fixpoint can_move_loop (card : Card) (r : Z) (cols : list (list Card)) : M bool :=
  match cols with
  | [] => mret false
  | i :: cols' =>
      if len i >? 0 then
        top ← lift (py_getitem i (-1));
        if card_eqb card top then
          w ← waste_top;
          if int_eq_rank (r - 1) (rank w) then mret true
          else
            w' ← waste_top;
            mret (int_eq_rank (r + 1) (rank w'))
        else can_move_loop card r cols'
      else can_move_loop card r cols'
  end.

Definition can_move (card : Card) : M bool :=
  match rank card with
  | Some r => t ← get_tableau; can_move_loop card r t
  | None => mret false
  end.

(** [self.tableau[col].pop()]: the column object the tableau holds at the
    position [col] denotes loses its last card, which is returned.  The
    tableau holds the object itself, so the shortened column is what it
    holds afterwards.  (Every column is a list object of its own, as
    [__init__] builds them.) *)
Definition tableau_pop (col : Z) : M Card :=
  t ← get_tableau;
  column ← lift (py_getitem t col);
  '(card, column') ← lift (py_pop column);
  match py_index (length t) col with
  | Some i => set_tableau (<[i := column']> t);; mret card
  | None => raise IndexError
  end.

(** [self.stock.pop()] *)
Definition stock_pop : M Card :=
  k ← get_stock;
  '(card, k') ← lift (py_pop k);
  set_stock k';;
  mret card.

Definition move_card (col : Z) : M unit :=
  t ← get_tableau;
  column ← lift (py_getitem t col);
  if len column >? 0 then
    card ← tableau_pop col;
    waste_append card
  else mret tt.

Definition deal_from_stock : M unit :=
  k ← get_stock;
  if len k >? 0 then
    card ← stock_pop;
    waste_append card
  else mret tt.

Fixpoint has_won_loop (cols : list (list Card)) : M bool :=
  match cols with
  | [] => mret true
  | i :: cols' =>
      if negb (len i =? 0) then mret false else has_won_loop cols'
  end.

Definition has_won : M bool :=
  t ← get_tableau; has_won_loop t.

(** The comprehension of [last_cards] over the indices [idxs]. *)
Fixpoint last_cards_loop (idxs : list nat) : M (list Card) :=
  match idxs with
  | [] => mret []
  | i :: idxs' =>
      t ← get_tableau;
      column ← lift (py_getitem t (Z.of_nat i));
      if negb (len column =? 0) then
        t' ← get_tableau;
        column' ← lift (py_getitem t' (Z.of_nat i));
        card ← lift (py_getitem column' (-1));
        rest ← last_cards_loop idxs';
        mret (card :: rest)
      else last_cards_loop idxs'
  end.

Definition last_cards : M (list Card) :=
  t ← get_tableau; last_cards_loop (seq 0 (length t)).

(** [[card for card in cards if self.can_move(card)]] *)
Fixpoint movable_cards (cards : list Card) : M (list Card) :=
  match cards with
  | [] => mret []
  | card :: cards' =>
      b ← can_move card;
      rest ← movable_cards cards';
      mret (if (b : bool) then card :: rest else rest)
  end.

Definition has_lost : M bool :=
  k ← get_stock;
  if len k =? 0 then
    cards ← last_cards;
    movable ← movable_cards cards;
    mret (len movable =? 0)
  else mret false.

(** ** The deck and the constructor *)

(** Modelled from the spec: [Deck] belongs to the absent [cards] module.  A
    new deck holds 52 unique cards, four suits of the ranks 1 (Ace) to 13
    (King); [deal_card] removes and returns one card and faults on an
    exhausted deck; [is_empty] tells whether any card is left.  The deck is
    kept as the sequence of its cards in the order [deal_card] hands them
    out. *)
Definition new_deck : list Card :=
  s ← [Spades; Hearts; Diamonds; Clubs];
  r ← seq 1 13;
  [mkCard s (Some (Z.of_nat r))].

(** Modelled from the spec: [self.deck.deal_card()] of the absent [Deck]
    class; it faults on an exhausted deck. *)
Definition deal_card : M Card :=
  d ← get_deck;
  match d with
  | card :: d' => set_deck d';; mret card
  | [] => raise EmptyDeck
  end.

(** Modelled from the spec: [self.deck.is_empty()] of the absent [Deck]
    class. *)
Definition is_empty : M bool :=
  d ← get_deck; mret (bool_decide (d = [])).

(** The inner loop [for cards in range(cards_in_column)], appending to the
    local list [column]. *)
Fixpoint deal_column (n : nat) (column : list Card) : M (list Card) :=
  match n with
  | O => mret column
  | S n' => card ← deal_card; deal_column n' (column ++ [card])
  end.

(** The outer loop [for col in range(columns)]. *)
Fixpoint deal_tableau (cols n : nat) : M unit :=
  match cols with
  | O => mret tt
  | S cols' =>
      column ← deal_column n [];
      tableau_append column;;
      deal_tableau cols' n
  end.

(** [while not self.deck.is_empty(): self.stock.append(self.deck.deal_card())] *)
Fixpoint deal_stock (fuel : nat) : M unit :=
  match fuel with
  | O => raise OutOfFuel
  | S fuel' =>
      e ← is_empty;
      if negb e then
        card ← deal_card;
        stock_append card;;
        deal_stock fuel'
      else mret tt
  end.

Section Constructor.

(** Modelled from the spec: [shuffle_deck] of the absent [Deck] class
    reorders the deck in a way the engine does not control; [shuffle] is the
    reordering it performs. *)
Variable shuffle : list Card -> list Card.

(** Modelled from the spec: [self.deck.shuffle_deck()]. *)
Definition shuffle_deck : M unit :=
  d ← get_deck; set_deck (shuffle d).

(** [Solitaire.__init__], for the class attributes [columns] and
    [cards_in_column]. *)
Definition init (columns cards_in_column : nat) : M unit :=
  set_deck new_deck;;
  set_tableau [];;
  set_waste [];;
  set_stock [];;
  shuffle_deck;;
  deal_tableau columns cards_in_column;;
  card ← deal_card;
  waste_append card;;
  d ← get_deck;
  deal_stock (S (length d)).

(** The attributes of an object before its constructor has run. *)
Definition blank : Solitaire := mkSolitaire [] [] [] [].

(** [Solitaire()] *)
Definition setup (columns cards_in_column : nat) : outcome unit * Solitaire :=
  init columns cards_in_column blank.

(** States a driver can bring the engine to: the constructed object, then
    any sequence of [move_card] and [deal_from_stock] calls, whether they
    return or raise. *)
Inductive reachable (columns cards_in_column : nat) : Solitaire -> Prop :=
| reach_setup s :
    setup columns cards_in_column = (Ok tt, s) ->
    reachable columns cards_in_column s
| reach_move s col :
    reachable columns cards_in_column s ->
    reachable columns cards_in_column (move_card col s).2
| reach_deal s :
    reachable columns cards_in_column s ->
    reachable columns cards_in_column (deal_from_stock s).2.

End Constructor.

(** ** Vocabulary of the properties *)

(** Cards on the table: all columns, the stock and the waste. *)
Definition total_cards (s : Solitaire) : nat :=
  (length (concat (tableau s)) + length (stock s) + length (waste s))%nat.

(** [card] is the last card of some non-empty column. *)
Definition exposed (s : Solitaire) (card : Card) : Prop :=
  exists column, column ∈ tableau s /\ last column = Some card.

(** The ranks [r] and [w] differ by exactly one. *)
Definition adjacent (r w : Z) : Prop := Z.abs (r - w) = 1.

(** [n] successive calls of a method. *)
Fixpoint repeat_call (n : nat) (m : M unit) : M unit :=
  match n with
  | O => mret tt
  | S n' => m;; repeat_call n' m
  end.

(** Whether some column of [cols] ends in [card]. *)
Definition ends_in (card : Card) (cols : list (list Card)) : bool :=
  existsb (fun i => bool_decide (last i = Some card)) cols.

(** The rank test of [can_move] against the card [top] on the waste. *)
Definition rank_test (r : Z) (top : Card) : bool :=
  int_eq_rank (r - 1) (rank top) || int_eq_rank (r + 1) (rank top).

(** The columns the two nested loops build from the deck [d]: [cols]
    successive runs of [n] cards. *)
Fixpoint chunks (cols n : nat) (d : list Card) : list (list Card) :=
  match cols with
  | O => []
  | S cols' => take n d :: chunks cols' n (drop n d)
  end.

(** All cards on the table, as one sequence. *)
Definition all_cards (s : Solitaire) : list Card :=
  concat (tableau s) ++ stock s ++ waste s.

(** A position with the 7 of Hearts on the waste. *)
Definition seven_up : Solitaire :=
  mkSolitaire []
    [[mkCard Clubs (Some 6); mkCard Spades (Some 8)];
     [mkCard Diamonds (Some 6)];
     [mkCard Spades (Some 7)];
     [mkCard Clubs (Some 5)];
     []]
    [mkCard Hearts (Some 7)]
    [mkCard Diamonds (Some 2)].

(** ** The console: [print_game], [rules] and [play] *)

(** What can end a run of the driver: an exception of the engine, the end
    of the input in [input()], a string [int()] rejects, or (an artefact of
    the model) the loop running out of fuel. *)
Inductive fault : Type :=
| EngineFault (e : exn)
| EOFError
| ValueError
| LoopFuel.

Inductive result (A : Type) : Type :=
| Done (a : A)
| Fault (f : fault).
Arguments Done {A} a.
Arguments Fault {A} f.

(** The engine object together with the lines still to be read by
    [input()] and the arguments of the [print] calls made so far. *)
Record Console : Type := mkConsole {
  game : Solitaire;
  stdin : list string;
  stdout : list string
}.

Definition IO (A : Type) : Type := Console -> result A * Console.

#[global] Instance IO_ret : MRet IO := fun A a c => (Done a, c).

#[global] Instance IO_bind : MBind IO := fun A B f m c =>
  match m c with
  | (Done a, c') => f a c'
  | (Fault e, c') => (Fault e, c')
  end.

(** A method of the engine called from the driver. *)
Definition engine {A} (m : M A) : IO A := fun c =>
  match m (game c) with
  | (Ok a, s') => (Done a, mkConsole s' (stdin c) (stdout c))
  | (Raise e, s') => (Fault (EngineFault e), mkConsole s' (stdin c) (stdout c))
  end.

(** [print(x)] *)
Definition print (x : string) : IO unit := fun c =>
  (Done tt, mkConsole (game c) (stdin c) (stdout c ++ [x])).

(** [input()] *)
Definition input : IO string := fun c =>
  match stdin c with
  | x :: rest => (Done x, mkConsole (game c) rest (stdout c))
  | [] => (Fault EOFError, c)
  end.

Definition get_stdin : IO (list string) := fun c => (Done (stdin c), c).

Definition newline : string := String "010"%char EmptyString.

(** [sep.join(parts)] *)
Fixpoint py_join (sep : string) (parts : list string) : string :=
  match parts with
  | [] => ""
  | [x] => x
  | x :: parts' => x +:+ sep +:+ py_join sep parts'
  end.

(** [x * n] for a string [x] *)
Fixpoint py_repeat (x : string) (n : nat) : string :=
  match n with
  | O => ""
  | S n' => x +:+ py_repeat x n'
  end.

(** [x.center(width, fill)]: the padding goes left and right, the odd
    character to the left when the width is odd. *)
Definition py_center (x : string) (width : nat) (fill : string) : string :=
  let marg := (width - String.length x)%nat in
  let left := (marg / 2 + (if Nat.odd marg && Nat.odd width then 1 else 0))%nat in
  py_repeat fill left +:+ x +:+ py_repeat fill (marg - left).

(** The value of a decimal digit. *)
Definition digit_value (a : ascii) : option Z :=
  let n := nat_of_ascii a in
  if (48 <=? n)%nat && (n <=? 57)%nat then Some (Z.of_nat (n - 48)) else None.

Fixpoint digits_value (acc : Z) (x : string) : option Z :=
  match x with
  | EmptyString => Some acc
  | String a x' =>
      match digit_value a with
      | Some d => digits_value (10 * acc + d) x'
      | None => None
      end
  end.

(** [int(x)] for a string of plain decimal digits, the only strings
    [play] passes to it; any other string is rejected here. *)
Definition py_int (x : string) : IO Z :=
  match x with
  | EmptyString => fun c => (Fault ValueError, c)
  | _ =>
      match digits_value 0 x with
      | Some n => mret n
      | None => fun c => (Fault ValueError, c)
      end
  end.

(** [zip_longest] of the lists [its]: row after row, the next element of
    every list, or [None] (standing for the fill value) where a list is
    exhausted, until all are. *)
Fixpoint zip_longest_go {A} (fuel : nat) (its : list (list A)) : list (list (option A)) :=
  match fuel with
  | O => []
  | S fuel' =>
      if forallb (fun l => bool_decide (l = [])) its then []
      else map head its :: zip_longest_go fuel' (map tail its)
  end.

Definition zip_longest {A} (its : list (list A)) : list (list (option A)) :=
  zip_longest_go (length (concat its)) its.

Definition allowed_moves : list string := ["0"; "1"; "2"; "3"; "4"; "5"; "6"].

(** The text [dedent] leaves of the rules. *)
Definition rules_text : string :=
  py_join newline
    [""; "Objective: Move all the cards from each column to the waste pile.";
     "";
     "A card can be moved from a column to the waste pile if the";
     "rank of that card is one higher or lower than the topmost card";
     "of the waste pile. Only the first card of each column can be moved.";
     "";
     "You can deal cards from the stock to the waste pile.";
     "The game is over if the stock is finished and";
     "there are no more moves left.";
     "";
     "The game is won once the tableau is empty.";
     "";
     "Commands:";
     "  (0-6) - integer of the column, where the topmost card will be moved";
     "  (d) - deal a card from the stock";
     "  (r) - show rules";
     "  (q) - quit";
     ""].

Definition rules : IO unit :=
  print (py_center "Rules" 40 "-");;
  print rules_text.

Section Driver.

(** Modelled from the spec: [shuffle_deck] of the absent [Deck] class, as
    for the constructor. *)
Variable shuffle : list Card -> list Card.

(** [str(card)]: the [Card] class is absent and its text form with it;
    [show] is whatever it returns. *)
Variable show : Card -> string.

(** [str(x)] for an element of a [zip_longest] row: a card, or the fill
    value, four blanks. *)
Definition str_cell (x : option Card) : string :=
  match x with
  | Some card => show card
  | None => "    "
  end.

Definition print_game : IO unit :=
  print (" " +:+ py_join "    " ["0"; "1"; "2"; "3"; "4"; "5"; "6"]);;
  print (py_repeat "-" 34);;
  t ← engine get_tableau;
  print (py_join newline
           (map (fun x => py_join " " (map str_cell x)) (zip_longest t)));;
  print "";;
  k ← engine get_stock;
  k' ← engine get_stock;
  print ("Stock pile: " +:+ pretty (len k) +:+ " card" +:+
         (if negb (len k' =? 1) then "s" else ""));;
  w ← engine get_waste;
  top ← (if bool_decide (w <> []) then
           w' ← engine get_waste;
           card ← engine (lift (py_getitem w' (-1)));
           mret (show card)
         else mret "Empty");
  print ("Waste pile: " +:+ top).

(** The command [(0-6)] of [play]: the test
    [self.can_move(self.tableau[cmd][-1]) and len(self.tableau[cmd]) != 0]
    reads the last card of the column before it looks at its length. *)
Definition play_move (columns : nat) (command : string) : IO unit :=
  cmd ← py_int command;
  if cmd <? Z.of_nat columns then
    t ← engine get_tableau;
    column ← engine (lift (py_getitem t cmd));
    card ← engine (lift (py_getitem column (-1)));
    movable ← engine (can_move card);
    if (movable : bool) then
      t' ← engine get_tableau;
      column' ← engine (lift (py_getitem t' cmd));
      if negb (len column' =? 0) then engine (move_card cmd) else mret tt
    else mret tt
  else mret tt.

(** The [while True] loop of [play]: [break] ends it, [continue] goes
    round again with one unit of fuel less. *)
Fixpoint play_loop (columns : nat) (fuel : nat) : IO unit :=
  match fuel with
  | O => fun c => (Fault LoopFuel, c)
  | S fuel' =>
      print_game;;
      won ← engine has_won;
      if (won : bool) then print "You won."
      else
        lost ← engine has_lost;
        if (lost : bool) then print "You lost."
        else
          command ← input;
          if bool_decide (command = "r") then
            rules;; play_loop columns fuel'
          else if bool_decide (command ∈ allowed_moves) then
            play_move columns command;; play_loop columns fuel'
          else if bool_decide (command = "d") then
            engine deal_from_stock;; play_loop columns fuel'
          else if bool_decide (command = "q") then mret tt
          else
            print ("Wrong input " +:+ command);; play_loop columns fuel'
  end.

(** [Solitaire.play], for the class attribute [columns].  Every turn of
    the loop that does not end it reads a line, so one turn more than
    there are lines is all the fuel it can use. *)
Definition play (columns : nat) : IO unit :=
  engine (shuffle_deck shuffle);;
  lines ← get_stdin;
  play_loop columns (S (length lines)).

End Driver.

(** One step of play by the rules: a deal from the stock, or the move of
    an exposed card for which [can_move] has just returned [True]. *)
Inductive legal_step : Solitaire -> Solitaire -> Prop :=
| legal_deal s : legal_step s (deal_from_stock s).2
| legal_move s (i : nat) column card :
    tableau s !! i = Some column ->
    last column = Some card ->
    can_move card s = (Ok true, s) ->
    legal_step s (move_card (Z.of_nat i) s).2.

(** Any number of such steps. *)
Inductive legal : Solitaire -> Solitaire -> Prop :=
| legal_refl s : legal s s
| legal_then s s1 s2 : legal s s1 -> legal_step s1 s2 -> legal s s2.

(** The longest column of a tableau. *)
Definition max_len (t : list (list Card)) : nat :=
  foldr Nat.max 0%nat (map length t).

(** What [print_game] prints in the state [s]: the arguments of its six
    [print] calls. *)
Definition game_lines (show : Card -> string) (s : Solitaire) : list string :=
  [" 0    1    2    3    4    5    6";
   "----------------------------------";
   py_join newline
     (map (fun r => py_join " " (map (fun column => str_cell show (column !! r)) (tableau s)))
          (seq 0 (max_len (tableau s))));
   "";
   "Stock pile: " +:+ pretty (len (stock s)) +:+ " card" +:+
     (if bool_decide (length (stock s) = 1%nat) then "" else "s");
   "Waste pile: " +:+
     match last (waste s) with Some card => show card | None => "Empty" end].

(** The console [c'] comes after [c] in a game played by the rules: the
    engine went through legal steps only, output was only added, and input
    was only consumed from the front. *)
Definition follows (c c' : Console) : Prop :=
  legal (game c) (game c') /\
  stdout c `prefix_of` stdout c' /\
  stdin c' `suffix_of` stdin c.

(** The loop of [play], run from [c] with [fuel], keeps to the rules and
    stops before its fuel does. *)
Definition loop_ok (show : Card -> string) (columns fuel : nat) (c : Console) : Prop :=
  follows c (play_loop show columns fuel c).2 /\
  ((length (stdin c) < fuel)%nat ->
   (play_loop show columns fuel c).1 <> Fault LoopFuel).

(** Unfolding the monad's primitives. *)
Ltac run :=
  unfold mbind, M_bind, mret, M_ret, lift, raise,
    get_deck, get_tableau, get_waste, get_stock,
    set_deck, set_tableau, set_waste, set_stock,
    waste_append, stock_append, tableau_append; simpl.

(** * Properties *)

(** ** Python subscripts and [pop] *)

Section ListPrimitives.
Context {A : Type}.
Implicit Types (l : list A) (k : Z) (n i : nat).

Lemma py_index_nonneg n k :
  0 <= k < Z.of_nat n -> py_index n k = Some (Z.to_nat k).
Proof.
  intros Hk. unfold py_index.
  destruct (Z.leb_spec 0 k), (Z.ltb_spec k (Z.of_nat n)); simpl; try lia.
  reflexivity.
Qed.

Lemma py_index_neg n k :
  - Z.of_nat n <= k < 0 -> py_index n k = Some (Z.to_nat (Z.of_nat n + k)).
Proof.
  intros Hk. unfold py_index.
  destruct (Z.leb_spec 0 k); simpl; try lia.
  destruct (Z.leb_spec (- Z.of_nat n) k), (Z.ltb_spec k 0); simpl; try lia.
  reflexivity.
Qed.

Lemma py_index_None n k :
  py_index n k = None <-> Z.of_nat n <= k \/ k < - Z.of_nat n.
Proof.
  unfold py_index.
  destruct (Z.leb_spec 0 k), (Z.ltb_spec k (Z.of_nat n)),
    (Z.leb_spec (- Z.of_nat n) k), (Z.ltb_spec k 0); simpl;
    split; intros Hk; try discriminate; try reflexivity; lia.
Qed.

Lemma py_index_lt n k i : py_index n k = Some i -> (i < n)%nat.
Proof.
  unfold py_index.
  destruct (Z.leb_spec 0 k), (Z.ltb_spec k (Z.of_nat n)),
    (Z.leb_spec (- Z.of_nat n) k), (Z.ltb_spec k 0); simpl;
    intros Hk; inversion Hk; lia.
Qed.

Lemma py_getitem_nonneg l k :
  0 <= k < len l ->
  py_getitem l k =
    match l !! Z.to_nat k with Some x => Ok x | None => Raise IndexError end.
Proof. intros Hk. unfold py_getitem. by rewrite py_index_nonneg. Qed.

Lemma py_getitem_nat l i x :
  l !! i = Some x -> py_getitem l (Z.of_nat i) = Ok x.
Proof.
  intros Hi. pose proof (lookup_lt_Some _ _ _ Hi).
  rewrite py_getitem_nonneg by (unfold len; lia).
  by rewrite Nat2Z.id, Hi.
Qed.

Lemma py_getitem_out l k :
  Z.of_nat (length l) <= k \/ k < - Z.of_nat (length l) ->
  py_getitem l k = Raise IndexError.
Proof.
  intros Hk. unfold py_getitem.
  by rewrite (proj2 (py_index_None _ _) Hk).
Qed.

Lemma py_getitem_in l k i :
  py_index (length l) k = Some i -> exists x, l !! i = Some x /\ py_getitem l k = Ok x.
Proof.
  intros Hi. unfold py_getitem. rewrite Hi.
  destruct (lookup_lt_is_Some_2 l i (py_index_lt _ _ _ Hi)) as [x Hx].
  exists x. by rewrite Hx.
Qed.

(** [l[-1]] is the last element, and raises on the empty list. *)
Lemma py_getitem_last l :
  py_getitem l (-1) =
    match last l with Some x => Ok x | None => Raise IndexError end.
Proof.
  rewrite last_lookup. destruct l as [|a l]; [reflexivity|].
  unfold py_getitem. rewrite py_index_neg by (simpl length; lia).
  replace (Z.to_nat (Z.of_nat (length (a :: l)) + -1)) with (pred (length (a :: l)))
    by (simpl length; lia).
  reflexivity.
Qed.

Lemma py_pop_snoc l x : py_pop (l ++ [x]) = Ok (x, l).
Proof. unfold py_pop. by rewrite last_snoc, removelast_last. Qed.

Lemma len_pos_snoc l x : (len (l ++ [x]) >? 0) = true.
Proof. by destruct l. Qed.

Lemma len_zero_snoc l x : (len (l ++ [x]) =? 0) = false.
Proof. by destruct l. Qed.

Lemma snoc_cases l : l = [] \/ exists l' x, l = l' ++ [x].
Proof.
  destruct l using rev_ind; [by left | right; eauto].
Qed.

End ListPrimitives.

(** ** Running method bodies *)

Lemma bind_Ok {A B} (m : M A) (f : A -> M B) s a s' :
  m s = (Ok a, s') -> (m ≫= f) s = f a s'.
Proof. intros Hm. unfold mbind, M_bind. by rewrite Hm. Qed.

Lemma bind_Raise {A B} (m : M A) (f : A -> M B) s e s' :
  m s = (Raise e, s') -> (m ≫= f) s = (Raise e, s').
Proof. intros Hm. unfold mbind, M_bind. by rewrite Hm. Qed.

Lemma waste_top_snoc s w card :
  waste s = w ++ [card] -> waste_top s = (Ok card, s).
Proof.
  intros Hw. unfold waste_top, get_waste, lift, mbind, M_bind.
  by rewrite py_getitem_last, Hw, last_snoc.
Qed.

Lemma waste_top_empty s :
  waste s = [] -> waste_top s = (Raise IndexError, s).
Proof.
  intros Hw. unfold waste_top, get_waste, lift, mbind, M_bind.
  by rewrite py_getitem_last, Hw.
Qed.

(** ** [can_move] *)

Lemma ends_in_exposed card s :
  ends_in card (tableau s) = true <-> exposed s card.
Proof.
  unfold ends_in, exposed. rewrite existsb_exists.
  split; intros (column & Hin & Hlast); exists column.
  - apply bool_decide_eq_true in Hlast. by rewrite list_elem_of_In.
  - rewrite <- list_elem_of_In. by rewrite bool_decide_eq_true.
Qed.

Lemma rank_test_adjacent r top :
  rank_test r top = true <-> exists w, rank top = Some w /\ adjacent r w.
Proof.
  unfold rank_test, adjacent, int_eq_rank. destruct (rank top) as [w|]; simpl.
  - rewrite orb_true_iff, !Z.eqb_eq. split.
    + intros Hw. exists w. split; [done | lia].
    + intros (w' & [= <-] & Hw). lia.
  - split; [done | by intros (w & Hw & _)].
Qed.

Lemma can_move_loop_top card r cols s w top :
  waste s = w ++ [top] ->
  can_move_loop card r cols s = (Ok (ends_in card cols && rank_test r top), s).
Proof.
  intros Hw. induction cols as [|i cols IH]; [reflexivity|].
  cbn [can_move_loop ends_in existsb].
  destruct (snoc_cases i) as [-> | (i' & x & ->)].
  - change (len [] >? 0) with false. cbn [last]. by rewrite IH.
  - rewrite len_pos_snoc.
    rewrite last_snoc. unfold lift at 1. rewrite py_getitem_last, last_snoc.
    unfold mbind at 1, M_bind at 1. unfold card_eqb.
    destruct (decide (card = x)) as [-> | Hne].
    + rewrite !bool_decide_eq_true_2 by done.
      rewrite (bind_Ok _ _ _ _ _ (waste_top_snoc _ _ _ Hw)).
      unfold rank_test. destruct (int_eq_rank (r - 1) (rank top)); [reflexivity|].
      by rewrite (bind_Ok _ _ _ _ _ (waste_top_snoc _ _ _ Hw)).
    + rewrite !bool_decide_eq_false_2 by congruence. by rewrite IH.
Qed.

Lemma can_move_loop_unexposed card r cols s :
  ends_in card cols = false -> can_move_loop card r cols s = (Ok false, s).
Proof.
  induction cols as [|i cols IH]; [reflexivity|].
  cbn [can_move_loop ends_in existsb].
  intros [Hi Hcols]%orb_false_iff. apply bool_decide_eq_false in Hi.
  destruct (snoc_cases i) as [-> | (i' & x & ->)].
  - change (len [] >? 0) with false. auto.
  - rewrite len_pos_snoc.
    unfold lift at 1. rewrite py_getitem_last, last_snoc.
    unfold mbind at 1, M_bind at 1. unfold card_eqb.
    rewrite last_snoc in Hi.
    rewrite bool_decide_eq_false_2 by congruence. auto.
Qed.

Lemma can_move_loop_no_waste card r cols s :
  waste s = [] -> ends_in card cols = true ->
  can_move_loop card r cols s = (Raise IndexError, s).
Proof.
  intros Hw. induction cols as [|i cols IH]; [done|].
  cbn [can_move_loop ends_in existsb].
  destruct (snoc_cases i) as [-> | (i' & x & ->)].
  - change (len [] >? 0) with false. cbn [last]. auto.
  - rewrite len_pos_snoc.
    rewrite last_snoc. unfold lift at 1. rewrite py_getitem_last, last_snoc.
    unfold mbind at 1, M_bind at 1. unfold card_eqb.
    destruct (decide (card = x)) as [-> | Hne].
    + rewrite !bool_decide_eq_true_2 by done. intros _.
      by rewrite (bind_Raise _ _ _ _ _ (waste_top_empty _ Hw)).
    + rewrite !bool_decide_eq_false_2 by congruence. auto.
Qed.

(** What [can_move] computes when the waste has a top card. *)
Lemma can_move_top card s w top :
  waste s = w ++ [top] ->
  can_move card s =
    (Ok match rank card with
        | Some r => ends_in card (tableau s) && rank_test r top
        | None => false
        end, s).
Proof.
  intros Hw. unfold can_move. destruct (rank card) as [r|]; [|reflexivity].
  unfold get_tableau, mbind, M_bind. by apply can_move_loop_top with w.
Qed.

(** [can_move] never changes the state, whatever it returns or raises. *)
Lemma can_move_pure card s : (can_move card s).2 = s.
Proof.
  destruct (snoc_cases (waste s)) as [Hw | (w & top & Hw)].
  - unfold can_move. destruct (rank card) as [r|]; [|reflexivity].
    unfold get_tableau, mbind, M_bind.
    destruct (ends_in card (tableau s)) eqn:He.
    + by rewrite can_move_loop_no_waste.
    + by rewrite can_move_loop_unexposed.
  - by rewrite (can_move_top _ _ _ _ Hw).
Qed.

(** C1.  In a state whose waste pile is not empty, [can_move card] returns
    a boolean and leaves the state as it was; it returns [True] exactly when
    the card has a rank, is the last card of some non-empty column and its
    rank differs from the rank of the top card of the waste by exactly one.
    There is no wrap-around between Ace and King: among the ranks 1 to 13, a
    card of rank 1 moves only onto rank 2 and a card of rank 13 only onto
    rank 12 (and only rank 2 moves onto an Ace, only rank 12 onto a King). *)
Theorem can_move_iff_exposed_adjacent (s : Solitaire) (card : Card) :
  waste s <> [] ->
  (exists b : bool,
      can_move card s = (Ok b, s) /\
      (b = true <->
       exists r top w,
         rank card = Some r /\ exposed s card /\
         last (waste s) = Some top /\ rank top = Some w /\ adjacent r w)) /\
  (forall r top w,
      rank card = Some r -> last (waste s) = Some top -> rank top = Some w ->
      1 <= r <= 13 -> 1 <= w <= 13 ->
      can_move card s = (Ok true, s) ->
      (r = 1 -> w = 2) /\ (r = 13 -> w = 12) /\
      (w = 1 -> r = 2) /\ (w = 13 -> r = 12)).
Proof.
  intros Hne.
  destruct (snoc_cases (waste s)) as [Hw | (ws & top & Hw)]; [done|].
  pose proof (can_move_top card s ws top Hw) as Hrun.
  assert (Hlast : last (waste s) = Some top) by (by rewrite Hw, last_snoc).
  split.
  - eexists. split; [exact Hrun|].
    destruct (rank card) as [r|] eqn:Hr.
    + rewrite andb_true_iff, ends_in_exposed, rank_test_adjacent. split.
      * intros (Hexp & w & Hw' & Hadj). by exists r, top, w.
      * intros (r' & top' & w & [= <-] & Hexp & Htop & Hw' & Hadj).
        rewrite Hlast in Htop. injection Htop as <-. eauto.
    + split; [done|]. by intros (r & _ & _ & Hr' & _).
  - intros r top' w Hr Htop Hw' Hrr Hww Htrue.
    rewrite Hlast in Htop. injection Htop as <-.
    rewrite Hrun, Hr in Htrue. injection Htrue as Htrue.
    apply andb_true_iff in Htrue as [_ Hadj].
    apply rank_test_adjacent in Hadj as (w' & Hw'' & Hadj).
    rewrite Hw' in Hw''. injection Hw'' as <-.
    unfold adjacent in Hadj. lia.
Qed.

Lemma can_move_iff_exposed_adjacent_witness :
  let s := mkSolitaire [] [[mkCard Hearts (Some 3); mkCard Clubs (Some 6)]]
             [mkCard Spades (Some 7)] [] in
  waste s <> [] /\
  exists b : bool,
    can_move (mkCard Clubs (Some 6)) s = (Ok b, s) /\
    (b = true <->
     exists r top w,
       rank (mkCard Clubs (Some 6)) = Some r /\ exposed s (mkCard Clubs (Some 6)) /\
       last (waste s) = Some top /\ rank top = Some w /\ adjacent r w).
Proof.
  intros s.
  assert (Hne : waste s <> []) by discriminate.
  split; [exact Hne|].
  exact (proj1 (can_move_iff_exposed_adjacent s (mkCard Clubs (Some 6)) Hne)).
Defined.

(** ** [has_won] *)

Lemma has_won_loop_spec cols s :
  has_won_loop cols s = (Ok (forallb (fun i => bool_decide (i = [])) cols), s).
Proof.
  induction cols as [|i cols IH]; [reflexivity|].
  cbn [has_won_loop forallb]. destruct i as [|x i]; [|reflexivity].
  change (negb (len [] =? 0)) with false. cbn iota. by rewrite IH.
Qed.

Lemma has_won_run s :
  has_won s = (Ok (forallb (fun i => bool_decide (i = [])) (tableau s)), s).
Proof. unfold has_won, get_tableau, mbind, M_bind. apply has_won_loop_spec. Qed.

Lemma forallb_all_empty (cols : list (list Card)) :
  forallb (fun i => bool_decide (i = [])) cols = true <->
  forall column, column ∈ cols -> column = [].
Proof.
  rewrite forallb_forall. split.
  - intros Hall column Hin. apply list_elem_of_In in Hin.
    specialize (Hall _ Hin). by apply bool_decide_eq_true in Hall.
  - intros Hall column Hin. apply bool_decide_eq_true_2, Hall.
    by apply list_elem_of_In.
Qed.

(** C7.  [has_won()] returns [True] exactly when every column of the
    tableau is empty, whatever the stock and the waste hold, and it leaves
    the state as it was. *)
Theorem has_won_iff_all_columns_empty (s : Solitaire) :
  exists b : bool,
    has_won s = (Ok b, s) /\
    (b = true <-> forall column, column ∈ tableau s -> column = []) /\
    forall d w k,
      has_won (mkSolitaire d (tableau s) w k) = (Ok b, mkSolitaire d (tableau s) w k).
Proof.
  exists (forallb (fun i => bool_decide (i = [])) (tableau s)).
  split; [|split].
  - apply has_won_run.
  - apply forallb_all_empty.
  - intros d w k. apply (has_won_run (mkSolitaire d (tableau s) w k)).
Qed.

(** ** [last_cards] and [has_lost] *)

Lemma last_cards_loop_seq s a n :
  (a + n = length (tableau s))%nat ->
  last_cards_loop (seq a n) s = (Ok (omap last (drop a (tableau s))), s).
Proof.
  revert a. induction n as [|n IH]; intros a Han.
  - rewrite drop_ge by lia. reflexivity.
  - destruct (lookup_lt_is_Some_2 (tableau s) a) as [column Hcol]; [lia|].
    rewrite (drop_S _ _ _ Hcol). cbn [seq last_cards_loop].
    unfold get_tableau, lift. unfold mbind at 1 2, M_bind at 1 2.
    rewrite (py_getitem_nat _ _ _ Hcol).
    destruct (snoc_cases column) as [-> | (column' & x & ->)].
    + change (negb (len [] =? 0)) with false. cbn iota.
      rewrite IH by lia. reflexivity.
    + rewrite len_zero_snoc. cbn [negb].
      unfold mbind at 1 2 3, M_bind at 1 2 3.
      rewrite (py_getitem_nat _ _ _ Hcol), py_getitem_last, last_snoc.
      unfold mbind, M_bind. rewrite IH by lia.
      cbn [omap list_omap]. by rewrite last_snoc.
Qed.

(** [last_cards()] returns the last card of every non-empty column, in
    column order. *)
Lemma last_cards_spec s : last_cards s = (Ok (omap last (tableau s)), s).
Proof.
  unfold last_cards, get_tableau, mbind, M_bind.
  by rewrite last_cards_loop_seq.
Qed.

Lemma elem_of_last_cards s card :
  card ∈ omap last (tableau s) <-> exposed s card.
Proof. by rewrite list_elem_of_omap. Qed.

Lemma can_move_cases card s :
  (exists b, can_move card s = (Ok b, s)) \/ (exists e, can_move card s = (Raise e, s)).
Proof.
  pose proof (can_move_pure card s) as Hs.
  destruct (can_move card s) as [[b|e] s']; simpl in Hs; subst s'; eauto.
Qed.

Lemma movable_cards_pure cards s : (movable_cards cards s).2 = s.
Proof.
  induction cards as [|card cards IH]; [reflexivity|].
  cbn [movable_cards]. unfold mbind at 1, M_bind at 1.
  destruct (can_move_cases card s) as [[b ->] | [e ->]]; [|reflexivity].
  unfold mbind, M_bind.
  destruct (movable_cards cards s) as [[l|e] s']; exact IH.
Qed.

Lemma movable_cards_nil cards s :
  movable_cards cards s = (Ok [], s) <->
  forall card, card ∈ cards -> can_move card s = (Ok false, s).
Proof.
  induction cards as [|card cards IH].
  - split; [|done]. intros _ card Hin. by apply elem_of_nil in Hin.
  - cbn [movable_cards]. unfold mbind at 1, M_bind at 1.
    destruct (can_move_cases card s) as [[b Hb] | [e He]].
    + rewrite Hb. unfold mbind, M_bind, mret, M_ret.
      pose proof (movable_cards_pure cards s) as Hs.
      destruct (movable_cards cards s) as [[l|e] s']; simpl in Hs; subst s'.
      * destruct b.
        -- split; [done|]. intros Hall.
           specialize (Hall card (list_elem_of_here _ _)). congruence.
        -- split.
           ++ intros [= ->] card' [-> | Hin]%elem_of_cons; [done|].
              by apply IH.
           ++ intros Hall. f_equal. f_equal.
              assert (Hnil : (Ok l, s) = (Ok ([] : list Card), s)).
              { apply IH. intros card' Hin. apply Hall. by right. }
              congruence.
      * split; [done|]. intros Hall.
        assert (Hnil : (Raise e : outcome (list Card), s) = (Ok [], s)).
        { apply IH. intros card' Hin. apply Hall. by right. }
        congruence.
    + rewrite He. split; [done|]. intros Hall.
      specialize (Hall card (list_elem_of_here _ _)). congruence.
Qed.

(** With a card on the waste every [can_move] call returns, so the
    comprehension of [has_lost] is a filter. *)
Lemma movable_cards_top cards s w top :
  waste s = w ++ [top] ->
  exists l, movable_cards cards s = (Ok l, s) /\
    forall card, card ∈ l <-> card ∈ cards /\ can_move card s = (Ok true, s).
Proof.
  intros Hw. induction cards as [|card cards (l & Hl & Hin)].
  - exists []. split; [reflexivity|]. intros card.
    split; [by intros ?%elem_of_nil | by intros [?%elem_of_nil _]].
  - cbn [movable_cards]. unfold mbind at 1, M_bind at 1.
    pose proof (can_move_top card s w top Hw) as Hc. rewrite Hc.
    unfold mbind, M_bind, mret, M_ret. rewrite Hl.
    eexists. split; [reflexivity|]. intros card'.
    destruct (match rank card with Some r => _ | None => false end) eqn:Hb.
    + rewrite !elem_of_cons, Hin. split.
      * intros [-> | [? ?]]; [split; [by left | done] | split; [by right | done]].
      * intros [[-> | ?] ?]; [by left | by right].
    + rewrite elem_of_cons, Hin. split.
      * intros [? ?]. split; [by right | done].
      * intros [[-> | ?] Ht]; [congruence | done].
Qed.

Lemma has_lost_unfold s :
  has_lost s =
    if bool_decide (stock s = []) then
      match movable_cards (omap last (tableau s)) s with
      | (Ok l, s') => (Ok (len l =? 0), s')
      | (Raise e, s') => (Raise e, s')
      end
    else (Ok false, s).
Proof.
  unfold has_lost, get_stock. unfold mbind at 1, M_bind at 1.
  destruct (stock s) as [|x k] eqn:Hk; [|reflexivity].
  change (len [] =? 0) with true. cbn iota.
  unfold mbind at 1, M_bind at 1. rewrite last_cards_spec.
  reflexivity.
Qed.

Lemma has_lost_pure s : (has_lost s).2 = s.
Proof.
  rewrite has_lost_unfold. case_bool_decide; [|reflexivity].
  pose proof (movable_cards_pure (omap last (tableau s)) s) as Hs.
  by destruct (movable_cards _ s) as [[l|e] s'].
Qed.

Lemma len_zero_nil {A} (l : list A) : (len l =? 0) = true <-> l = [].
Proof. destruct l; [done|]. split; discriminate. Qed.

(** C4.  The exposed cards are those [last_cards()] returns.  In every
    state [has_lost()] returns [True] exactly when the stock is empty and
    [can_move] is false of every exposed card; when the stock is not empty
    it returns [False] whatever the exposed cards are.  In a state with a
    card on the waste (every state the game reaches) [has_lost()] always
    returns, and [True] exactly when the stock is empty and [can_move]
    returns [True] for no exposed card. *)
Theorem has_lost_iff_stock_empty_and_no_move (s : Solitaire) :
  (exists cards,
      last_cards s = (Ok cards, s) /\
      forall card, card ∈ cards <-> exposed s card) /\
  (has_lost s = (Ok true, s) <->
   stock s = [] /\
   forall card, exposed s card -> can_move card s = (Ok false, s)) /\
  (stock s <> [] -> has_lost s = (Ok false, s)) /\
  (waste s <> [] ->
   exists b : bool,
     has_lost s = (Ok b, s) /\
     (b = true <->
      stock s = [] /\
      forall card, exposed s card -> can_move card s <> (Ok true, s))).
Proof.
  split; [|split; [|split]].
  - exists (omap last (tableau s)). split; [apply last_cards_spec|].
    intros card. apply elem_of_last_cards.
  - rewrite has_lost_unfold. case_bool_decide as Hk.
    + pose proof (movable_cards_nil (omap last (tableau s)) s) as Hnil.
      pose proof (movable_cards_pure (omap last (tableau s)) s) as Hs.
      destruct (movable_cards _ s) as [[l|e] s']; simpl in Hs; subst s'.
      * split.
        -- intros [= Hl]. apply len_zero_nil in Hl. subst l.
           split; [done|]. intros card Hexp.
           apply (proj1 Hnil eq_refl). by apply elem_of_last_cards.
        -- intros [_ Hall].
           assert (Hl : (Ok l, s) = (Ok ([] : list Card), s)).
           { apply Hnil. intros card Hin. by apply Hall, elem_of_last_cards. }
           injection Hl as ->. reflexivity.
      * split; [done|]. intros [_ Hall].
        assert (Hl : (Raise e : outcome (list Card), s) = (Ok [], s)).
        { apply Hnil. intros card Hin. by apply Hall, elem_of_last_cards. }
        discriminate.
    + split; [done | by intros [? _]].
  - intros Hk. rewrite has_lost_unfold. by rewrite bool_decide_eq_false_2.
  - intros Hne.
    destruct (snoc_cases (waste s)) as [Hw | (w & top & Hw)]; [done|].
    rewrite has_lost_unfold.
    destruct (movable_cards_top (omap last (tableau s)) s w top Hw)
      as (l & -> & Hin).
    case_bool_decide as Hk.
    + eexists. split; [reflexivity|]. rewrite len_zero_nil. split.
      * intros -> . split; [done|]. intros card Hexp Htrue.
        apply (elem_of_nil card), Hin. by rewrite elem_of_last_cards.
      * intros [_ Hall]. destruct l as [|card l]; [done|]. exfalso.
        destruct (proj1 (Hin card) (list_elem_of_here _ _)) as [Hexp Htrue].
        apply elem_of_last_cards in Hexp. by apply (Hall card).
    + exists false. split; [reflexivity|]. split; [done | by intros [? _]].
Qed.

Lemma has_lost_iff_stock_empty_and_no_move_witness :
  let s := mkSolitaire [] [[mkCard Hearts (Some 3); mkCard Clubs (Some 9)]]
             [mkCard Spades (Some 7)] [mkCard Diamonds (Some 8)] in
  stock s <> [] /\ has_lost s = (Ok false, s).
Proof.
  intros s.
  assert (Hk : stock s <> []) by discriminate.
  split; [exact Hk|].
  exact (proj1 (proj2 (proj2 (has_lost_iff_stock_empty_and_no_move s))) Hk).
Defined.

(** C9.  When every column is empty and the stock is empty, [has_won()]
    and [has_lost()] both return [True]: [last_cards()] is the empty list, so
    no exposed card is there to be moved. *)
Theorem has_won_and_has_lost_both_true (s : Solitaire) :
  (forall column, column ∈ tableau s -> column = []) ->
  stock s = [] ->
  has_won s = (Ok true, s) /\
  has_lost s = (Ok true, s) /\
  last_cards s = (Ok [], s).
Proof.
  intros Hcols Hk.
  assert (Hnone : omap last (tableau s) = []).
  { induction (tableau s) as [|column t IH]; [reflexivity|].
    rewrite (Hcols column) by (by left). cbn.
    apply IH. intros column' Hin. apply Hcols. by right. }
  split; [|split].
  - rewrite has_won_run. by rewrite (proj2 (forallb_all_empty _) Hcols).
  - rewrite has_lost_unfold, Hnone. by rewrite bool_decide_eq_true_2.
  - by rewrite last_cards_spec, Hnone.
Qed.

Lemma has_won_and_has_lost_both_true_witness :
  let s := mkSolitaire [] [[]; []; []] [mkCard Spades (Some 7)] [] in
  has_won s = (Ok true, s) /\ has_lost s = (Ok true, s) /\ last_cards s = (Ok [], s).
Proof.
  intros s. apply has_won_and_has_lost_both_true; [|reflexivity].
  intros column Hin. vm_compute in Hin.
  repeat (apply elem_of_cons in Hin as [-> | Hin]; [reflexivity|]).
  by apply elem_of_nil in Hin.
Defined.

(** ** [move_card] *)

Lemma move_card_at s col i column' card :
  py_index (length (tableau s)) col = Some i ->
  tableau s !! i = Some (column' ++ [card]) ->
  move_card col s =
    (Ok tt, mkSolitaire (deck s) (<[i := column']> (tableau s))
              (waste s ++ [card]) (stock s)).
Proof.
  intros Hi Hcol. unfold move_card, tableau_pop. run.
  destruct (py_getitem_in _ _ _ Hi) as (column & Hcol' & ->).
  rewrite Hcol in Hcol'. injection Hcol' as <-.
  rewrite len_pos_snoc.
  destruct (py_getitem_in _ _ _ Hi) as (column & Hcol' & ->).
  rewrite Hcol in Hcol'. injection Hcol' as <-.
  rewrite (py_pop_snoc column' card), Hi. reflexivity.
Qed.

Lemma move_card_at_empty s col i :
  py_index (length (tableau s)) col = Some i ->
  tableau s !! i = Some [] ->
  move_card col s = (Ok tt, s).
Proof.
  intros Hi Hcol. unfold move_card. run.
  destruct (py_getitem_in _ _ _ Hi) as (column & Hcol' & ->).
  rewrite Hcol in Hcol'. by injection Hcol' as <-.
Qed.

Lemma move_card_out s col :
  py_index (length (tableau s)) col = None ->
  move_card col s = (Raise IndexError, s).
Proof.
  intros Hi. unfold move_card. run.
  by rewrite py_getitem_out by (by apply py_index_None).
Qed.

(** Whatever [move_card] does within range, it is one of the two cases
    above. *)
Lemma move_card_in s col i :
  py_index (length (tableau s)) col = Some i ->
  (tableau s !! i = Some [] /\ move_card col s = (Ok tt, s)) \/
  (exists column' card,
      tableau s !! i = Some (column' ++ [card]) /\
      move_card col s =
        (Ok tt, mkSolitaire (deck s) (<[i := column']> (tableau s))
                  (waste s ++ [card]) (stock s))).
Proof.
  intros Hi.
  destruct (lookup_lt_is_Some_2 (tableau s) i (py_index_lt _ _ _ Hi)) as [column Hcol].
  destruct (snoc_cases column) as [-> | (column' & card & ->)].
  - left. split; [done|]. by apply move_card_at_empty with i.
  - right. exists column', card. split; [done|]. by apply move_card_at.
Qed.

(** C3.  For a column index [0 <= col < len(tableau)]: when the column is
    not empty, [move_card(col)] returns normally, the column loses exactly
    its last card, that card is appended to the waste and is its new top,
    and every other column, the number of columns, the stock and the deck
    are as before; when the column is empty, [move_card(col)] returns
    normally and the state is unchanged. *)
Theorem move_card_moves_last_card (s : Solitaire) (col : Z) :
  0 <= col < len (tableau s) ->
  (forall column' card,
      tableau s !! Z.to_nat col = Some (column' ++ [card]) ->
      exists s',
        move_card col s = (Ok tt, s') /\
        tableau s' = <[Z.to_nat col := column']> (tableau s) /\
        tableau s' !! Z.to_nat col = Some column' /\
        (forall j, j <> Z.to_nat col -> tableau s' !! j = tableau s !! j) /\
        length (tableau s') = length (tableau s) /\
        waste s' = waste s ++ [card] /\
        last (waste s') = Some card /\
        stock s' = stock s /\
        deck s' = deck s) /\
  (tableau s !! Z.to_nat col = Some [] -> move_card col s = (Ok tt, s)).
Proof.
  intros Hcol.
  pose proof (py_index_nonneg (length (tableau s)) col Hcol) as Hi.
  split.
  - intros column' card Hlook. eexists.
    split; [by apply move_card_at|]. cbn.
    pose proof (lookup_lt_Some _ _ _ Hlook) as Hlt.
    repeat split.
    + by apply list_lookup_insert_eq.
    + intros j Hj. by apply list_lookup_insert_ne.
    + apply length_insert.
    + apply last_snoc.
  - intros Hlook. by apply move_card_at_empty with (Z.to_nat col).
Qed.

Lemma move_card_moves_last_card_witness :
  let s := mkSolitaire []
             [[mkCard Hearts (Some 3); mkCard Clubs (Some 9)]; []]
             [mkCard Spades (Some 7)] [mkCard Diamonds (Some 8)] in
  (0 <= 0 < len (tableau s)) /\
  (exists s',
      move_card 0 s = (Ok tt, s') /\
      tableau s' = [[mkCard Hearts (Some 3)]; []] /\
      waste s' = [mkCard Spades (Some 7); mkCard Clubs (Some 9)] /\
      stock s' = stock s) /\
  move_card 1 s = (Ok tt, s).
Proof.
  intros s.
  assert (H0 : 0 <= 0 < len (tableau s)) by (vm_compute; split; [discriminate | reflexivity]).
  assert (H1 : 0 <= 1 < len (tableau s)) by (vm_compute; split; [discriminate | reflexivity]).
  split; [exact H0|]. split.
  - destruct (proj1 (move_card_moves_last_card s 0 H0)
                [mkCard Hearts (Some 3)] (mkCard Clubs (Some 9)) eq_refl)
      as (s' & Hrun & Ht & _ & _ & _ & Hw & _ & Hk & _).
    exists s'. repeat split; assumption.
  - exact (proj2 (move_card_moves_last_card s 1 H1) eq_refl).
Defined.

(** ** [deal_from_stock] *)

Lemma deal_from_stock_snoc s k card :
  stock s = k ++ [card] ->
  deal_from_stock s =
    (Ok tt, mkSolitaire (deck s) (tableau s) (waste s ++ [card]) k).
Proof.
  intros Hk. unfold deal_from_stock, stock_pop. run.
  rewrite Hk, len_pos_snoc. cbn. rewrite Hk, (py_pop_snoc k card). reflexivity.
Qed.

Lemma deal_from_stock_empty s :
  stock s = [] -> deal_from_stock s = (Ok tt, s).
Proof. intros Hk. unfold deal_from_stock. run. by rewrite Hk. Qed.

Lemma repeat_call_add a b (m : M unit) s s' :
  repeat_call a m s = (Ok tt, s') ->
  repeat_call (a + b) m s = repeat_call b m s'.
Proof.
  revert s. induction a as [|a IH]; intros s.
  - by intros [= ->].
  - cbn [repeat_call Nat.add]. unfold mbind, M_bind.
    destruct (m s) as [[[]|e] s1]; [apply IH | discriminate].
Qed.

(** Once the stock is empty, dealing is a no-op however often it is
    called. *)
Lemma deal_repeat_empty m s :
  stock s = [] -> repeat_call m deal_from_stock s = (Ok tt, s).
Proof.
  intros Hk. induction m as [|m IH]; [reflexivity|].
  cbn [repeat_call]. by rewrite (bind_Ok _ _ _ _ _ (deal_from_stock_empty s Hk)).
Qed.

(** Dealing as often as the stock has cards beyond [k1] moves exactly
    those cards to the waste, the last card of the stock first. *)
Lemma deal_repeat_split s k1 k2 :
  stock s = k1 ++ k2 ->
  repeat_call (length k2) deal_from_stock s =
    (Ok tt, mkSolitaire (deck s) (tableau s) (waste s ++ reverse k2) k1).
Proof.
  revert s. induction k2 as [|card k2 IH] using rev_ind; intros s Hk.
  - rewrite app_nil_r in Hk. cbn. rewrite app_nil_r. subst k1. by destruct s.
  - rewrite length_app, Nat.add_comm. cbn [length Nat.add repeat_call].
    rewrite (assoc_L (++)) in Hk.
    rewrite (bind_Ok _ _ _ _ _ (deal_from_stock_snoc s _ _ Hk)).
    rewrite IH by reflexivity. cbn.
    by rewrite reverse_snoc, <- (assoc_L (++)).
Qed.

(** C6.  Each [deal_from_stock()] on a non-empty stock removes the last
    card of the stock and appends it to the waste, where it is the new top,
    and leaves the tableau alone.  From a stock of [n] cards, [n] calls move
    exactly those cards to the waste one at a time (after [j] calls the last
    [j] cards of the stock have gone, last first); the stock is then empty,
    and any number of further calls returns normally and changes nothing. *)
Theorem deal_from_stock_exhausts_stock (s : Solitaire) :
  (forall k card,
      stock s = k ++ [card] ->
      deal_from_stock s =
        (Ok tt, mkSolitaire (deck s) (tableau s) (waste s ++ [card]) k)) /\
  (forall k1 k2,
      stock s = k1 ++ k2 ->
      repeat_call (length k2) deal_from_stock s =
        (Ok tt, mkSolitaire (deck s) (tableau s) (waste s ++ reverse k2) k1)) /\
  (forall m,
      repeat_call (length (stock s) + m) deal_from_stock s =
        (Ok tt, mkSolitaire (deck s) (tableau s) (waste s ++ reverse (stock s)) [])) /\
  (stock s = [] ->
   deal_from_stock s = (Ok tt, s) /\
   forall m, repeat_call m deal_from_stock s = (Ok tt, s)).
Proof.
  split; [|split; [|split]].
  - intros k card. apply deal_from_stock_snoc.
  - intros k1 k2. apply deal_repeat_split.
  - intros m.
    rewrite (repeat_call_add _ _ _ _ _ (deal_repeat_split s [] (stock s) eq_refl)).
    by apply deal_repeat_empty.
  - intros Hk. split; [by apply deal_from_stock_empty|].
    intros m. by apply deal_repeat_empty.
Qed.

Lemma deal_from_stock_exhausts_stock_witness :
  let s := mkSolitaire [] [[mkCard Hearts (Some 3)]] [mkCard Spades (Some 7)]
             [mkCard Diamonds (Some 8); mkCard Clubs (Some 2)] in
  deal_from_stock s =
    (Ok tt, mkSolitaire [] [[mkCard Hearts (Some 3)]]
              [mkCard Spades (Some 7); mkCard Clubs (Some 2)]
              [mkCard Diamonds (Some 8)]) /\
  repeat_call 2 deal_from_stock s =
    (Ok tt, mkSolitaire [] [[mkCard Hearts (Some 3)]]
              [mkCard Spades (Some 7); mkCard Clubs (Some 2); mkCard Diamonds (Some 8)]
              []) /\
  repeat_call 5 deal_from_stock s = repeat_call 2 deal_from_stock s.
Proof.
  intros s.
  pose proof (deal_from_stock_exhausts_stock s) as (Hone & Hsplit & Hmore & _).
  split; [exact (Hone [mkCard Diamonds (Some 8)] (mkCard Clubs (Some 2)) eq_refl)|].
  split; [exact (Hsplit [] (stock s) eq_refl)|].
  exact (eq_trans (Hmore 3%nat) (eq_sym (Hsplit [] (stock s) eq_refl))).
Defined.

(** ** The constructor *)

Lemma chunks_length cols n d : length (chunks cols n d) = cols.
Proof. revert d. induction cols as [|cols IH]; intros d; cbn; [done | by rewrite IH]. Qed.

Lemma chunks_concat cols n d : concat (chunks cols n d) = take (cols * n) d.
Proof.
  revert d. induction cols as [|cols IH]; intros d; cbn; [done|].
  by rewrite IH, take_take_drop.
Qed.

Lemma chunks_lookup cols n d j :
  (j < cols)%nat -> chunks cols n d !! j = Some (take n (drop (j * n) d)).
Proof.
  revert d j. induction cols as [|cols IH]; intros d j Hj; [lia|].
  destruct j as [|j]; cbn; [done|].
  rewrite IH by lia. by rewrite drop_drop, (Nat.add_comm n).
Qed.

Lemma chunks_full cols n d column :
  (cols * n <= length d)%nat -> column ∈ chunks cols n d -> length column = n.
Proof.
  intros Hd [j Hj]%list_elem_of_lookup.
  pose proof (lookup_lt_Some _ _ _ Hj) as Hlt. rewrite chunks_length in Hlt.
  rewrite chunks_lookup in Hj by done. injection Hj as <-.
  rewrite length_take, length_drop. nia.
Qed.

Lemma deal_card_cons s card d :
  deck s = card :: d ->
  deal_card s = (Ok card, mkSolitaire d (tableau s) (waste s) (stock s)).
Proof. intros Hd. unfold deal_card. run. by rewrite Hd. Qed.

Lemma deal_card_nil s : deck s = [] -> deal_card s = (Raise EmptyDeck, s).
Proof. intros Hd. unfold deal_card. run. by rewrite Hd. Qed.

Lemma deal_column_ok n column s :
  (n <= length (deck s))%nat ->
  deal_column n column s =
    (Ok (column ++ take n (deck s)),
     mkSolitaire (drop n (deck s)) (tableau s) (waste s) (stock s)).
Proof.
  revert column s. induction n as [|n IH]; intros column s Hn.
  - cbn. rewrite app_nil_r. by destruct s.
  - destruct (deck s) as [|card d] eqn:Hd; [simpl in Hn; lia|].
    cbn [deal_column]. rewrite (bind_Ok _ _ _ _ _ (deal_card_cons s card d Hd)).
    rewrite IH by (simpl in *; lia). cbn. by rewrite <- (assoc_L (++)).
Qed.

Lemma deal_column_short n column s :
  (length (deck s) < n)%nat -> (deal_column n column s).1 = Raise EmptyDeck.
Proof.
  revert column s. induction n as [|n IH]; intros column s Hn; [lia|].
  cbn [deal_column]. destruct (deck s) as [|card d] eqn:Hd.
  - by rewrite (bind_Raise _ _ _ _ _ (deal_card_nil s Hd)).
  - rewrite (bind_Ok _ _ _ _ _ (deal_card_cons s card d Hd)).
    apply IH. simpl in *. lia.
Qed.

Lemma deal_tableau_ok cols n s :
  (cols * n <= length (deck s))%nat ->
  deal_tableau cols n s =
    (Ok tt, mkSolitaire (drop (cols * n) (deck s))
              (tableau s ++ chunks cols n (deck s)) (waste s) (stock s)).
Proof.
  revert s. induction cols as [|cols IH]; intros s Hn.
  - cbn. rewrite app_nil_r. by destruct s.
  - cbn [deal_tableau].
    rewrite (bind_Ok _ _ _ _ _ (deal_column_ok n [] s ltac:(lia))).
    run. rewrite IH by (cbn; rewrite length_drop; lia). cbn.
    by rewrite drop_drop, <- (assoc_L (++)).
Qed.

Lemma deal_tableau_short cols n s :
  (length (deck s) < cols * n)%nat -> (deal_tableau cols n s).1 = Raise EmptyDeck.
Proof.
  revert s. induction cols as [|cols IH]; intros s Hn; [simpl in Hn; lia|].
  cbn [deal_tableau].
  destruct (decide (n <= length (deck s))%nat) as [Hle | Hgt].
  - rewrite (bind_Ok _ _ _ _ _ (deal_column_ok n [] s Hle)).
    run. apply IH. cbn. rewrite length_drop. lia.
  - pose proof (deal_column_short n [] s ltac:(lia)) as Hshort.
    unfold mbind, M_bind. destruct (deal_column n [] s) as [[column|e] s'];
      simpl in Hshort; [discriminate | simpl; congruence].
Qed.

(** The [while] loop ends before its fuel does, with the whole deck on
    the stock. *)
Lemma deal_stock_ok fuel s :
  (length (deck s) < fuel)%nat ->
  deal_stock fuel s =
    (Ok tt, mkSolitaire [] (tableau s) (waste s) (stock s ++ deck s)).
Proof.
  revert s. induction fuel as [|fuel IH]; intros s Hn; [lia|].
  cbn [deal_stock]. unfold is_empty. run.
  destruct (deck s) as [|card d] eqn:Hd.
  - cbn. rewrite app_nil_r. destruct s; simpl in *. by subst.
  - cbn. unfold deal_card. run. rewrite Hd.
    rewrite IH by (simpl in *; lia). cbn. by rewrite <- (assoc_L (++)).
Qed.

#[local] Arguments deal_stock : simpl never.

Lemma init_ok shuffle cols n s0 :
  (cols * n < length (shuffle new_deck))%nat ->
  init shuffle cols n s0 =
    (Ok tt, mkSolitaire [] (chunks cols n (shuffle new_deck))
              (take 1 (drop (cols * n) (shuffle new_deck)))
              (drop (S (cols * n)) (shuffle new_deck))).
Proof.
  intros Hn. unfold init, shuffle_deck. run.
  set (d := shuffle new_deck) in *.
  rewrite deal_tableau_ok by (simpl; lia). cbn.
  unfold deal_card. run.
  destruct (drop (cols * n) d) as [|card d'] eqn:Hd.
  { apply (f_equal length) in Hd. rewrite length_drop in Hd. simpl in Hd. lia. }
  rewrite deal_stock_ok by (simpl; lia). cbn.
  do 2 f_equal.
  change (S (cols * n)) with (1 + cols * n)%nat.
  by rewrite Nat.add_comm, <- drop_drop, Hd.
Qed.

Lemma init_short shuffle cols n s0 :
  (length (shuffle new_deck) <= cols * n)%nat ->
  (init shuffle cols n s0).1 = Raise EmptyDeck.
Proof.
  intros Hn. unfold init, shuffle_deck. run.
  set (d := shuffle new_deck) in *.
  set (s1 := mkSolitaire d [] [] []).
  destruct (decide (cols * n <= length d)%nat) as [Hle | Hgt].
  - rewrite (deal_tableau_ok cols n s1) by done. cbn.
    unfold deal_card. run. by rewrite drop_ge by lia.
  - pose proof (deal_tableau_short cols n s1 ltac:(simpl; lia)) as Hshort.
    destruct (deal_tableau cols n s1) as [[[]|e] s']; simpl in Hshort;
      [discriminate | simpl; congruence].
Qed.

(** The constructed object, whenever the constructor returns. *)
Lemma setup_inv shuffle cols n s :
  setup shuffle cols n = (Ok tt, s) ->
  (cols * n < length (shuffle new_deck))%nat /\
  s = mkSolitaire [] (chunks cols n (shuffle new_deck))
        (take 1 (drop (cols * n) (shuffle new_deck)))
        (drop (S (cols * n)) (shuffle new_deck)).
Proof.
  intros Hrun. unfold setup in Hrun.
  destruct (decide (cols * n < length (shuffle new_deck))%nat) as [Hlt | Hge].
  - split; [done|]. rewrite init_ok in Hrun by done. by injection Hrun as <-.
  - pose proof (init_short shuffle cols n blank ltac:(lia)) as Hshort.
    rewrite Hrun in Hshort. discriminate.
Qed.

(** ** Invariants of play *)

Lemma concat_insert_snoc (t : list (list Card)) i column' card :
  t !! i = Some (column' ++ [card]) ->
  S (length (concat (<[i := column']> t))) = length (concat t).
Proof.
  intros Hi. pose proof (lookup_lt_Some _ _ _ Hi) as Hlt.
  rewrite insert_take_drop by done.
  rewrite <- (take_drop_middle t i _ Hi) at 3.
  rewrite !concat_app, !concat_cons, !length_app. simpl. lia.
Qed.

Lemma move_card_total s col : total_cards (move_card col s).2 = total_cards s.
Proof.
  destruct (py_index (length (tableau s)) col) as [i|] eqn:Hi.
  - destruct (move_card_in s col i Hi) as [[_ ->] | (column' & card & Hcol & ->)];
      [done|].
    unfold total_cards. cbn. rewrite length_app. cbn.
    pose proof (concat_insert_snoc _ _ _ _ Hcol). lia.
  - by rewrite move_card_out.
Qed.

Lemma deal_from_stock_total s :
  total_cards (deal_from_stock s).2 = total_cards s.
Proof.
  destruct (snoc_cases (stock s)) as [Hk | (k & card & Hk)].
  - by rewrite deal_from_stock_empty.
  - rewrite (deal_from_stock_snoc s k card Hk). unfold total_cards. cbn.
    rewrite Hk, !length_app. cbn. lia.
Qed.

Lemma concat_insert_perm (t : list (list Card)) i column' card :
  t !! i = Some (column' ++ [card]) ->
  concat (<[i := column']> t) ++ [card] ≡ₚ concat t.
Proof.
  intros Hi. pose proof (lookup_lt_Some _ _ _ Hi) as Hlt.
  rewrite insert_take_drop by done.
  rewrite <- (take_drop_middle t i _ Hi) at 3.
  rewrite !concat_app, !concat_cons, <- !(assoc_L (++)).
  do 2 f_equiv. apply Permutation_app_comm.
Qed.

(** A move or a deal relocates a card: the cards on the table are the same
    before and after, up to where they lie. *)
Lemma move_card_relocates s col : all_cards (move_card col s).2 ≡ₚ all_cards s.
Proof.
  destruct (py_index (length (tableau s)) col) as [i|] eqn:Hi.
  - destruct (move_card_in s col i Hi) as [[_ ->] | (column' & card & Hcol & ->)];
      [done|].
    unfold all_cards. cbn [snd tableau stock waste].
    rewrite <- (concat_insert_perm _ _ _ _ Hcol).
    rewrite <- !(assoc_L (++)). f_equiv.
    rewrite (assoc_L (++)). apply Permutation_app_comm.
  - by rewrite move_card_out.
Qed.

Lemma deal_from_stock_relocates s :
  all_cards (deal_from_stock s).2 ≡ₚ all_cards s.
Proof.
  destruct (snoc_cases (stock s)) as [Hk | (k & card & Hk)].
  - by rewrite deal_from_stock_empty.
  - rewrite (deal_from_stock_snoc s k card Hk). unfold all_cards.
    cbn [snd tableau stock waste]. rewrite Hk, <- !(assoc_L (++)).
    do 2 f_equiv. apply Permutation_app_comm.
Qed.

Lemma move_card_columns s col :
  length (tableau (move_card col s).2) = length (tableau s).
Proof.
  destruct (py_index (length (tableau s)) col) as [i|] eqn:Hi.
  - destruct (move_card_in s col i Hi) as [[_ ->] | (column' & card & Hcol & ->)];
      [done|]. apply length_insert.
  - by rewrite move_card_out.
Qed.

Lemma deal_from_stock_tableau s : tableau (deal_from_stock s).2 = tableau s.
Proof.
  destruct (snoc_cases (stock s)) as [Hk | (k & card & Hk)].
  - by rewrite deal_from_stock_empty.
  - by rewrite (deal_from_stock_snoc s k card Hk).
Qed.

(** The tableau keeps the number of columns the constructor gave it. *)
Lemma reachable_columns shuffle cols n s :
  reachable shuffle cols n s -> length (tableau s) = cols.
Proof.
  induction 1 as [s Hsetup | s col _ IH | s _ IH].
  - apply setup_inv in Hsetup as [_ ->]. apply chunks_length.
  - by rewrite move_card_columns.
  - by rewrite deal_from_stock_tableau.
Qed.

(** Both mutating methods leave the waste as it was or append one card. *)
Lemma move_card_waste s col :
  exists l, waste (move_card col s).2 = waste s ++ l.
Proof.
  destruct (py_index (length (tableau s)) col) as [i|] eqn:Hi.
  - destruct (move_card_in s col i Hi) as [[_ ->] | (column' & card & Hcol & ->)].
    + exists []. by rewrite app_nil_r.
    + by exists [card].
  - rewrite move_card_out by done. exists []. by rewrite app_nil_r.
Qed.

Lemma deal_from_stock_waste s :
  exists l, waste (deal_from_stock s).2 = waste s ++ l.
Proof.
  destruct (snoc_cases (stock s)) as [Hk | (k & card & Hk)].
  - rewrite deal_from_stock_empty by done. exists []. by rewrite app_nil_r.
  - rewrite (deal_from_stock_snoc s k card Hk). by exists [card].
Qed.

Lemma reachable_waste shuffle cols n s :
  reachable shuffle cols n s -> (1 <= length (waste s))%nat.
Proof.
  induction 1 as [s Hsetup | s col _ IH | s _ IH].
  - apply setup_inv in Hsetup as [Hlt ->]. cbn [waste].
    rewrite length_take, length_drop. lia.
  - destruct (move_card_waste s col) as [l ->]. rewrite length_app. lia.
  - destruct (deal_from_stock_waste s) as [l ->]. rewrite length_app. lia.
Qed.

(** C10.  [move_card(col)] raises [IndexError] exactly when
    [col >= len(tableau)] or [col < -len(tableau)], and then leaves the
    state unchanged; for [-len(tableau) <= col <= -1] it returns normally
    and does what [move_card(len(tableau) + col)] does, that is, it works on
    the column counted from the end; with seven columns [move_card(-1)]
    moves the last card of column 6.  In every state reached from the
    constructor [len(tableau)] is the class attribute [columns]. *)
Theorem move_card_index_error_iff (s : Solitaire) (col : Z) :
  ((exists e, (move_card col s).1 = Raise e) <->
   len (tableau s) <= col \/ col < - len (tableau s)) /\
  (len (tableau s) <= col \/ col < - len (tableau s) ->
   move_card col s = (Raise IndexError, s)) /\
  (- len (tableau s) <= col <= -1 ->
   (move_card col s).1 = Ok tt /\
   move_card col s = move_card (len (tableau s) + col) s) /\
  (length (tableau s) = 7%nat ->
   forall column' card,
     tableau s !! 6%nat = Some (column' ++ [card]) ->
     move_card (-1) s =
       (Ok tt, mkSolitaire (deck s) (<[6%nat := column']> (tableau s))
                 (waste s ++ [card]) (stock s))) /\
  (forall shuffle columns cards_in_column,
      reachable shuffle columns cards_in_column s ->
      len (tableau s) = Z.of_nat columns).
Proof.
  unfold len. split; [|split; [|split; [|split]]].
  - split.
    + intros [e He]. apply py_index_None.
      destruct (py_index (length (tableau s)) col) as [i|] eqn:Hi; [|done].
      destruct (move_card_in s col i Hi) as [[_ Hrun] | (? & ? & _ & Hrun)];
        rewrite Hrun in He; discriminate.
    + intros Hout. exists IndexError.
      by rewrite move_card_out by (by apply py_index_None).
  - intros Hout. by apply move_card_out, py_index_None.
  - intros Hneg.
    pose proof (py_index_neg (length (tableau s)) col ltac:(lia)) as Hi.
    pose proof (py_index_nonneg (length (tableau s))
                  (Z.of_nat (length (tableau s)) + col) ltac:(lia)) as Hi'.
    destruct (move_card_in s col _ Hi) as [[Hcol Hrun] | (c' & card & Hcol & Hrun)].
    + rewrite Hrun. split; [done|]. symmetry. by eapply move_card_at_empty.
    + rewrite Hrun. split; [done|]. symmetry. by apply move_card_at.
  - intros Hlen column' card Hcol. apply move_card_at; [|done].
    by rewrite Hlen.
  - intros shuffle cols n Hreach. f_equal. by eapply reachable_columns.
Qed.

Lemma move_card_index_error_iff_witness :
  let s := mkSolitaire []
             [[]; []; []; []; []; []; [mkCard Hearts (Some 3); mkCard Clubs (Some 9)]]
             [mkCard Spades (Some 7)] [] in
  move_card 7 s = (Raise IndexError, s) /\
  move_card (-8) s = (Raise IndexError, s) /\
  move_card (-1) s = move_card 6 s /\
  move_card (-1) s =
    (Ok tt, mkSolitaire [] [[]; []; []; []; []; []; [mkCard Hearts (Some 3)]]
              [mkCard Spades (Some 7); mkCard Clubs (Some 9)] []).
Proof.
  intros s.
  pose proof (move_card_index_error_iff s 7) as (_ & Hhigh & _ & _ & _).
  pose proof (move_card_index_error_iff s (-8)) as (_ & Hlow & _ & _ & _).
  pose proof (move_card_index_error_iff s (-1)) as (_ & _ & Hneg & Hlast & _).
  split; [apply Hhigh; left; vm_compute; discriminate|].
  split; [apply Hlow; right; reflexivity|].
  split; [apply Hneg; vm_compute; split; discriminate|].
  exact (Hlast eq_refl [mkCard Hearts (Some 3)] (mkCard Clubs (Some 9)) eq_refl).
Defined.

Lemma new_deck_length : length new_deck = 52%nat.
Proof. reflexivity. Qed.

Lemma new_deck_NoDup : NoDup new_deck.
Proof. apply (bool_decide_unpack _). by vm_compute. Qed.

(** C8.  In every state reached after the constructor has returned the
    waste holds at least one card: the constructor puts one there, and
    [move_card] and [deal_from_stock] leave the waste as it was or append to
    it.  In every state with a card on the waste, [has_won], [has_lost],
    [last_cards] and [can_move] return a value (the read of the last waste
    card succeeds) and leave the state as it was. *)
Theorem waste_nonempty_and_queries_total
    (shuffle : list Card -> list Card) (columns cards_in_column : nat) :
  (forall s,
      reachable shuffle columns cards_in_column s -> (1 <= length (waste s))%nat) /\
  (forall s col, exists l, waste (move_card col s).2 = waste s ++ l) /\
  (forall s, exists l, waste (deal_from_stock s).2 = waste s ++ l) /\
  (forall s,
      (1 <= length (waste s))%nat ->
      (exists top, waste_top s = (Ok top, s)) /\
      (exists b, has_won s = (Ok b, s)) /\
      (exists b, has_lost s = (Ok b, s)) /\
      (exists cards, last_cards s = (Ok cards, s)) /\
      (forall card, exists b, can_move card s = (Ok b, s))).
Proof.
  split; [|split; [|split]].
  - intros s. apply reachable_waste.
  - apply move_card_waste.
  - apply deal_from_stock_waste.
  - intros s Hlen.
    destruct (snoc_cases (waste s)) as [Hw | (w & top & Hw)].
    { rewrite Hw in Hlen. simpl in Hlen. lia. }
    split; [|split; [|split; [|split]]].
    + exists top. by apply waste_top_snoc with w.
    + eexists. apply has_won_run.
    + rewrite has_lost_unfold.
      destruct (movable_cards_top (omap last (tableau s)) s w top Hw)
        as (l & -> & _).
      case_bool_decide; eauto.
    + eexists. apply last_cards_spec.
    + intros card. eexists. by apply can_move_top with w.
Qed.

Lemma waste_nonempty_and_queries_total_witness :
  let s := (move_card (-1) (setup reverse 7 5).2).2 in
  reachable reverse 7 5 s /\
  (1 <= length (waste s))%nat /\
  (exists b, has_lost s = (Ok b, s)) /\
  (forall card, exists b, can_move card s = (Ok b, s)).
Proof.
  intros s.
  assert (Hreach : reachable reverse 7 5 s).
  { apply reach_move, reach_setup. by vm_compute. }
  pose proof (waste_nonempty_and_queries_total reverse 7 5) as (Hinv & _ & _ & Htotal).
  pose proof (Hinv s Hreach) as Hlen.
  split; [exact Hreach|]. split; [exact Hlen|].
  destruct (Htotal s Hlen) as (_ & _ & Hlost & _ & Hmove).
  split; [exact Hlost | exact Hmove].
Defined.

Section Shuffled.

Variable shuffle : list Card -> list Card.
Hypothesis shuffle_perm : forall d, shuffle d ≡ₚ d.

Lemma shuffled_length : length (shuffle new_deck) = 52%nat.
Proof. by rewrite shuffle_perm. Qed.

Lemma shuffled_NoDup : NoDup (shuffle new_deck).
Proof. rewrite shuffle_perm. apply new_deck_NoDup. Qed.

(** C2.  In every state reached from the constructor, for whatever
    [columns] and [cards_in_column] it returns with, the cards of all
    columns, the stock and the waste number 52; [move_card] and
    [deal_from_stock] both preserve that number in every state and for
    every argument, and the cards on the table after either call are those
    before it, rearranged. *)
Theorem conservation_of_cards :
  (forall columns cards_in_column s,
      reachable shuffle columns cards_in_column s -> total_cards s = 52%nat) /\
  (forall s col, total_cards (move_card col s).2 = total_cards s) /\
  (forall s, total_cards (deal_from_stock s).2 = total_cards s) /\
  (forall s col, all_cards (move_card col s).2 ≡ₚ all_cards s) /\
  (forall s, all_cards (deal_from_stock s).2 ≡ₚ all_cards s).
Proof.
  split; [|split; [|split; [|split]]];
    [| apply move_card_total | apply deal_from_stock_total
     | apply move_card_relocates | apply deal_from_stock_relocates].
  - intros cols n s.
    induction 1 as [s Hsetup | s col _ IH | s _ IH].
    + apply setup_inv in Hsetup as [Hlt ->]. unfold total_cards.
      cbn [tableau waste stock].
      rewrite chunks_concat, !length_take, !length_drop.
      rewrite shuffled_length in *. lia.
    + by rewrite move_card_total.
    + by rewrite deal_from_stock_total.
Qed.

(** C5.  With [columns = 7] and [cards_in_column = 5] the constructor
    returns; the tableau has 7 columns of 5 cards, column [j] holding the
    cards dealt 5j-th to (5j+4)-th in that order, so that its exposed card
    is the last one dealt to it; the waste holds exactly the next card
    dealt, the stock the remaining 16 in dealing order; no card occurs
    twice across tableau, waste and stock, which together are the 52
    cards of the shuffled deck; and the deck is left empty. *)
Theorem setup_shape :
  exists s,
    setup shuffle 7 5 = (Ok tt, s) /\
    length (tableau s) = 7%nat /\
    (forall column, column ∈ tableau s -> length column = 5%nat) /\
    (forall j, (j < 7)%nat ->
       tableau s !! j = Some (take 5 (drop (j * 5) (shuffle new_deck))) /\
       last (take 5 (drop (j * 5) (shuffle new_deck))) =
         shuffle new_deck !! (j * 5 + 4)%nat) /\
    waste s = take 1 (drop 35 (shuffle new_deck)) /\
    length (waste s) = 1%nat /\
    stock s = drop 36 (shuffle new_deck) /\
    length (stock s) = 16%nat /\
    concat (tableau s) ++ waste s ++ stock s = shuffle new_deck /\
    NoDup (concat (tableau s) ++ waste s ++ stock s) /\
    length (concat (tableau s) ++ waste s ++ stock s) = 52%nat /\
    deck s = [].
Proof.
  pose proof shuffled_length as Hlen.
  eexists. split.
  { unfold setup. apply init_ok. rewrite Hlen. lia. }
  cbn [deck tableau waste stock]. change (7 * 5)%nat with 35%nat.
  assert (Hall : concat (chunks 7 5 (shuffle new_deck)) ++
                 take 1 (drop 35 (shuffle new_deck)) ++
                 drop 36 (shuffle new_deck) = shuffle new_deck).
  { rewrite chunks_concat. change (7 * 5)%nat with 35%nat.
    rewrite (assoc_L (++)), take_take_drop. apply take_drop. }
  split_and!.
  - apply chunks_length.
  - intros column. apply chunks_full. rewrite Hlen. lia.
  - intros j Hj. split; [by apply chunks_lookup|].
    rewrite last_lookup, length_take, length_drop, Hlen.
    replace (pred (5 `min` (52 - j * 5)))%nat with 4%nat by lia.
    rewrite lookup_take_lt by lia. by rewrite lookup_drop.
  - reflexivity.
  - rewrite length_take, length_drop, Hlen. lia.
  - reflexivity.
  - rewrite length_drop, Hlen. lia.
  - exact Hall.
  - rewrite Hall. apply shuffled_NoDup.
  - by rewrite Hall.
  - reflexivity.
Qed.

End Shuffled.

(** Reversing the deck is one of the reorderings a shuffle may perform. *)
Lemma reverse_is_shuffle (d : list Card) : reverse d ≡ₚ d.
Proof. apply reverse_Permutation. Qed.

Lemma conservation_of_cards_witness :
  let s := (deal_from_stock (move_card 3 (setup reverse 7 5).2).2).2 in
  (forall d : list Card, reverse d ≡ₚ d) /\
  reachable reverse 7 5 s /\
  total_cards s = 52%nat.
Proof.
  intros s.
  assert (Hreach : reachable reverse 7 5 s).
  { apply reach_deal, reach_move, reach_setup. by vm_compute. }
  split; [exact reverse_is_shuffle|]. split; [exact Hreach|].
  exact (proj1 (conservation_of_cards reverse reverse_is_shuffle) 7%nat 5%nat s Hreach).
Defined.

Lemma setup_shape_witness :
  (forall d : list Card, reverse d ≡ₚ d) /\
  exists s,
    setup reverse 7 5 = (Ok tt, s) /\
    length (tableau s) = 7%nat /\
    length (waste s) = 1%nat /\
    length (stock s) = 16%nat /\
    NoDup (concat (tableau s) ++ waste s ++ stock s) /\
    deck s = [].
Proof.
  split; [exact reverse_is_shuffle|].
  destruct (setup_shape reverse reverse_is_shuffle)
    as (s & Hrun & Ht & _ & _ & _ & Hw & _ & Hk & _ & Hnd & _ & Hd).
  exists s. split_and!; assumption.
Defined.

(** ** Worked positions *)

(** In [seven_up] an exposed 6 or 8 can be moved, an exposed 7 or 5
    cannot, and neither can a buried 6. *)
Example seven_up_moves :
  can_move (mkCard Spades (Some 8)) seven_up = (Ok true, seven_up) /\
  can_move (mkCard Diamonds (Some 6)) seven_up = (Ok true, seven_up) /\
  can_move (mkCard Spades (Some 7)) seven_up = (Ok false, seven_up) /\
  can_move (mkCard Clubs (Some 5)) seven_up = (Ok false, seven_up) /\
  can_move (mkCard Clubs (Some 6)) seven_up = (Ok false, seven_up) /\
  has_lost seven_up = (Ok false, seven_up) /\
  has_won seven_up = (Ok false, seven_up).
Proof. by vm_compute. Qed.

(** An Ace on the waste does not take a King, nor a King an Ace; a card
    without rank is never movable. *)
Example no_wrap_around :
  can_move (mkCard Spades (Some 13))
    (mkSolitaire [] [[mkCard Spades (Some 13)]] [mkCard Hearts (Some 1)] [])
  = (Ok false,
     mkSolitaire [] [[mkCard Spades (Some 13)]] [mkCard Hearts (Some 1)] []) /\
  can_move (mkCard Spades (Some 1))
    (mkSolitaire [] [[mkCard Spades (Some 1)]] [mkCard Hearts (Some 13)] [])
  = (Ok false,
     mkSolitaire [] [[mkCard Spades (Some 1)]] [mkCard Hearts (Some 13)] []) /\
  can_move (mkCard Spades None)
    (mkSolitaire [] [[mkCard Spades None]] [mkCard Hearts (Some 13)] [])
  = (Ok false,
     mkSolitaire [] [[mkCard Spades None]] [mkCard Hearts (Some 13)] []).
Proof. by vm_compute. Qed.

(** Stock empty and nothing within one rank of the waste: the game is
    lost; with a card left in the stock it is not. *)
Example lost_position :
  has_lost (mkSolitaire [] [[mkCard Clubs (Some 5)]; [mkCard Spades (Some 9)]]
              [mkCard Hearts (Some 7)] [])
  = (Ok true,
     mkSolitaire [] [[mkCard Clubs (Some 5)]; [mkCard Spades (Some 9)]]
       [mkCard Hearts (Some 7)] []) /\
  has_lost (mkSolitaire [] [[mkCard Clubs (Some 5)]; [mkCard Spades (Some 9)]]
              [mkCard Hearts (Some 7)] [mkCard Diamonds (Some 12)])
  = (Ok false,
     mkSolitaire [] [[mkCard Clubs (Some 5)]; [mkCard Spades (Some 9)]]
       [mkCard Hearts (Some 7)] [mkCard Diamonds (Some 12)]).
Proof. by vm_compute. Qed.

(** Outside the states of play: were the waste empty, the read of its last
    card in [can_move] would raise, and [has_lost] with it. *)
Example empty_waste_raises :
  can_move (mkCard Clubs (Some 5)) (mkSolitaire [] [[mkCard Clubs (Some 5)]] [] [])
  = (Raise IndexError, mkSolitaire [] [[mkCard Clubs (Some 5)]] [] []) /\
  has_lost (mkSolitaire [] [[mkCard Clubs (Some 5)]] [] [])
  = (Raise IndexError, mkSolitaire [] [[mkCard Clubs (Some 5)]] [] []).
Proof. by vm_compute. Qed.

(** With columns too long for the deck the constructor faults instead of
    building a short tableau. *)
Example setup_needs_enough_cards : (setup reverse 11 5).1 = Raise EmptyDeck.
Proof. by vm_compute. Qed.

(** * The console *)

(** ** Running the driver *)

Lemma io_bind_Done {A B} (m : IO A) (f : A -> IO B) c a c' :
  m c = (Done a, c') -> (m ≫= f) c = f a c'.
Proof. intros Hm. unfold mbind, IO_bind. by rewrite Hm. Qed.

Lemma io_bind_Fault {A B} (m : IO A) (f : A -> IO B) c e c' :
  m c = (Fault e, c') -> (m ≫= f) c = (Fault e, c').
Proof. intros Hm. unfold mbind, IO_bind. by rewrite Hm. Qed.

Lemma engine_Ok {A} (m : M A) c a :
  m (game c) = (Ok a, game c) -> engine m c = (Done a, c).
Proof. intros Hm. unfold engine. rewrite Hm. by destruct c. Qed.

Lemma engine_Raise {A} (m : M A) c e :
  m (game c) = (Raise e, game c) -> engine m c = (Fault (EngineFault e), c).
Proof. intros Hm. unfold engine. rewrite Hm. by destruct c. Qed.

Lemma engine_lift_Ok {A} (o : outcome A) c a :
  o = Ok a -> engine (lift o) c = (Done a, c).
Proof. intros ->. by apply engine_Ok. Qed.

Lemma engine_lift_Raise {A} (o : outcome A) c e :
  o = Raise e -> engine (lift o) c = (Fault (EngineFault e), c).
Proof. intros ->. by apply (engine_Raise (lift (Raise e))). Qed.

(** ** [zip_longest] and [print_game] *)

Lemma all_nil_max_len (its : list (list Card)) :
  forallb (fun l => bool_decide (l = [])) its = true <-> max_len its = 0%nat.
Proof.
  unfold max_len. induction its as [|l its IH]; [done|].
  cbn [forallb map foldr]. rewrite andb_true_iff, IH, bool_decide_eq_true.
  destruct l; simpl; split; try lia; try (intros [? ?]; done).
  intros Hm. split; [done | lia].
Qed.

Lemma max_len_tail (its : list (list Card)) :
  max_len (map tail its) = pred (max_len its).
Proof.
  unfold max_len. induction its as [|l its IH]; [done|].
  cbn [map foldr]. rewrite IH. destruct l; simpl; lia.
Qed.

Lemma max_len_concat (its : list (list Card)) :
  (max_len its <= length (concat its))%nat.
Proof.
  unfold max_len. induction its as [|l its IH]; [done|].
  cbn [map foldr concat]. rewrite length_app. lia.
Qed.

Lemma max_len_lookup (its : list (list Card)) i column :
  its !! i = Some column -> (length column <= max_len its)%nat.
Proof.
  unfold max_len. revert i. induction its as [|l its IH]; intros i Hi; [done|].
  cbn [map foldr]. destruct i as [|i]; simpl in Hi.
  - injection Hi as ->. lia.
  - specialize (IH i Hi). lia.
Qed.

Lemma zip_longest_go_rows fuel (its : list (list Card)) :
  (max_len its <= fuel)%nat ->
  zip_longest_go fuel its =
    map (fun r => map (fun l => l !! r) its) (seq 0 (max_len its)).
Proof.
  revert its. induction fuel as [|fuel IH]; intros its Hfuel.
  - by replace (max_len its) with 0%nat by lia.
  - cbn [zip_longest_go].
    destruct (forallb (fun l => bool_decide (l = [])) its) eqn:Hnil.
    + apply all_nil_max_len in Hnil. by rewrite Hnil.
    + assert (Hpos : max_len its <> 0%nat).
      { intros H0. apply all_nil_max_len in H0. congruence. }
      pose proof (max_len_tail its) as Htail.
      rewrite IH by lia. rewrite Htail.
      destruct (max_len its) as [|m]; [done|].
      cbn [seq map pred]. f_equal.
      * apply map_ext. by intros [|x l].
      * rewrite <- seq_shift, !map_map. apply map_ext. intros r.
        rewrite map_map. apply map_ext. by intros [|x l].
Qed.

(** [zip_longest] over the columns gives as many rows as the longest
    column has cards; row [r] has one cell per column, holding the [r]-th
    card of the column, or the fill value where the column is shorter.  On
    an empty tableau there is no row at all. *)
Theorem zip_longest_transposes (t : list (list Card)) :
  length (zip_longest t) = max_len t /\
  (forall r, (r < max_len t)%nat ->
     exists row,
       zip_longest t !! r = Some row /\
       length row = length t /\
       forall j column, t !! j = Some column -> row !! j = Some (column !! r)) /\
  (forall j column, t !! j = Some column -> (length column <= max_len t)%nat) /\
  zip_longest ([] : list (list Card)) = [].
Proof.
  unfold zip_longest. rewrite zip_longest_go_rows by apply max_len_concat.
  split_and!.
  - by rewrite length_map, length_seq.
  - intros r Hr. eexists. split_and!.
    + rewrite list_lookup_fmap, lookup_seq_lt by done. reflexivity.
    + by rewrite length_map.
    + intros j column Hj. change (map ?f t) with (f <$> t).
      by rewrite list_lookup_fmap, Hj.
  - apply max_len_lookup.
  - reflexivity.
Qed.

Lemma print_game_run show c :
  print_game show c =
    (Done tt, mkConsole (game c) (stdin c) (stdout c ++ game_lines show (game c))).
Proof.
  assert (Hstock :
    (if negb (len (stock (game c)) =? 1) then "s" else "") =
    (if bool_decide (length (stock (game c)) = 1%nat) then "" else "s")).
  { unfold len. case_bool_decide as Hk.
    - by rewrite Hk.
    - destruct (Z.eqb_spec (Z.of_nat (length (stock (game c)))) 1); [lia | done]. }
  assert (Hrows : forall x,
    map (str_cell show) (map (fun l : list Card => l !! x) (tableau (game c))) =
    map (fun column => str_cell show (column !! x)) (tableau (game c))).
  { intros x. by rewrite map_map. }
  unfold print_game, print, engine, get_tableau, get_stock, get_waste,
    mbind, IO_bind, mret, IO_ret. cbn [game stdin stdout].
  rewrite Hstock.
  unfold zip_longest. rewrite zip_longest_go_rows by apply max_len_concat.
  rewrite map_map. rewrite (map_ext _ _ (fun x => f_equal (py_join " ") (Hrows x))).
  unfold game_lines.
  destruct (snoc_cases (waste (game c))) as [Hw | (w & top & Hw)].
  - rewrite Hw. rewrite bool_decide_eq_false_2 by (intros Hne; by apply Hne).
    cbn [game stdin stdout last]. by rewrite <- !(assoc_L (++)).
  - rewrite bool_decide_eq_true_2 by (rewrite Hw; by destruct w).
    cbn [game stdin stdout]. unfold lift. rewrite py_getitem_last, Hw, last_snoc.
    cbn [game stdin stdout]. by rewrite <- !(assoc_L (++)).
Qed.



(** ** [play] *)

Lemma legal_trans s1 s2 s3 : legal s1 s2 -> legal s2 s3 -> legal s1 s3.
Proof.
  intros H12 H23. induction H23 as [|s2 s s' _ IH Hstep]; [done|].
  eapply legal_then; [by apply IH | done].
Qed.

Lemma follows_refl c : follows c c.
Proof. split_and!; [apply legal_refl | done | done]. Qed.

Lemma follows_trans c1 c2 c3 : follows c1 c2 -> follows c2 c3 -> follows c1 c3.
Proof.
  intros (Hl & Ho & Hi) (Hl' & Ho' & Hi'). split_and!.
  - by eapply legal_trans.
  - by etrans.
  - by etrans.
Qed.

Lemma py_int_allowed i command c :
  allowed_moves !! i = Some command -> py_int command c = (Done (Z.of_nat i), c).
Proof.
  intros Hi. do 7 (destruct i as [|i]; [by injection Hi as <-|]). done.
Qed.

(** What the command [(0-6)] does: it leaves the engine alone, or makes
    one legal move, whether it returns or faults; input and output are
    untouched. *)
Lemma play_move_cases columns command c :
  command ∈ allowed_moves ->
  exists r s',
    play_move columns command c = (r, mkConsole s' (stdin c) (stdout c)) /\
    (s' = game c \/ legal_step (game c) s') /\
    (r = Done tt \/ exists e, r = Fault (EngineFault e)).
Proof.
  intros [i Hi]%list_elem_of_lookup. unfold play_move.
  rewrite (io_bind_Done _ _ _ _ _ (py_int_allowed i command c Hi)).
  assert (Heta : c = mkConsole (game c) (stdin c) (stdout c)) by (by destruct c).
  assert (Hsame : forall r : result unit,
            (r = Done tt \/ exists e, r = Fault (EngineFault e)) ->
            exists r' s',
              (r, c) = (r', mkConsole s' (stdin c) (stdout c)) /\
              (s' = game c \/ legal_step (game c) s') /\
              (r' = Done tt \/ exists e, r' = Fault (EngineFault e))).
  { intros r Hr. exists r, (game c). rewrite <- Heta. auto. }
  destruct (Z.of_nat i <? Z.of_nat columns); [|apply Hsame; auto].
  rewrite (io_bind_Done _ _ _ _ _ (engine_Ok get_tableau c _ eq_refl)).
  destruct (tableau (game c) !! i) as [column|] eqn:Hcol.
  2:{ apply lookup_ge_None in Hcol.
      rewrite (io_bind_Fault _ _ _ _ _
                 (engine_lift_Raise _ c _
                    (py_getitem_out (tableau (game c)) (Z.of_nat i) ltac:(lia)))).
      apply Hsame; eauto. }
  rewrite (io_bind_Done _ _ _ _ _
             (engine_lift_Ok _ c _ (py_getitem_nat _ _ _ Hcol))).
  destruct (snoc_cases column) as [-> | (column' & card & ->)].
  { rewrite (io_bind_Fault _ _ _ _ _
               (engine_lift_Raise _ c IndexError (py_getitem_last []))).
    apply Hsame; eauto. }
  assert (Hlast : py_getitem (column' ++ [card]) (-1) = Ok card)
    by (by rewrite py_getitem_last, last_snoc).
  rewrite (io_bind_Done _ _ _ _ _ (engine_lift_Ok _ c _ Hlast)).
  destruct (can_move_cases card (game c)) as [[b Hb] | [e He]].
  2:{ rewrite (io_bind_Fault _ _ _ _ _ (engine_Raise _ c _ He)).
      apply Hsame; eauto. }
  rewrite (io_bind_Done _ _ _ _ _ (engine_Ok _ c _ Hb)).
  destruct b; [|apply Hsame; auto].
  rewrite (io_bind_Done _ _ _ _ _ (engine_Ok get_tableau c _ eq_refl)).
  rewrite (io_bind_Done _ _ _ _ _
             (engine_lift_Ok _ c _ (py_getitem_nat _ _ _ Hcol))).
  rewrite len_zero_snoc. cbn [negb]. unfold engine.
  pose proof (legal_move (game c) i _ card Hcol (last_snoc _ _) Hb) as Hstep.
  revert Hstep.
  destruct (move_card (Z.of_nat i) (game c)) as [[[]|e] s']; cbn [snd];
    intros Hstep; eexists _, s'; split_and!; [done | by right | eauto ..].
Qed.

Lemma deal_from_stock_Ok s : (deal_from_stock s).1 = Ok tt.
Proof.
  destruct (snoc_cases (stock s)) as [Hk | (k & card & Hk)].
  - by rewrite deal_from_stock_empty.
  - by rewrite (deal_from_stock_snoc s k card Hk).
Qed.

Lemma input_nil c : stdin c = [] -> input c = (Fault EOFError, c).
Proof. intros Hin. unfold input. by rewrite Hin. Qed.

Lemma input_cons c x rest :
  stdin c = x :: rest -> input c = (Done x, mkConsole (game c) rest (stdout c)).
Proof. intros Hin. unfold input. by rewrite Hin. Qed.

Lemma print_run x c :
  print x c = (Done tt, mkConsole (game c) (stdin c) (stdout c ++ [x])).
Proof. reflexivity. Qed.

Lemma rules_run c :
  rules c =
    (Done tt, mkConsole (game c) (stdin c)
                (stdout c ++ [py_center "Rules" 40 "-"; rules_text])).
Proof.
  unfold rules, print, mbind, IO_bind. cbn [game stdin stdout].
  by rewrite <- (assoc_L (++)).
Qed.

Lemma engine_deal_run c :
  engine deal_from_stock c =
    (Done tt, mkConsole (deal_from_stock (game c)).2 (stdin c) (stdout c)).
Proof.
  unfold engine. pose proof (deal_from_stock_Ok (game c)) as Hok.
  destruct (deal_from_stock (game c)) as [[[]|e] s']; [done | discriminate].
Qed.

Section PlayLoop.

Variable show : Card -> string.
Variable columns : nat.

Lemma loop_continue fuel c c' n :
  (forall c0, loop_ok show columns fuel c0) ->
  follows c c' ->
  (length (stdin c') < n)%nat ->
  follows c (play_loop show columns fuel c').2 /\
  ((n < S fuel)%nat ->
   (play_loop show columns fuel c').1 <> Fault LoopFuel).
Proof.
  intros IH Hfol Hlen. destruct (IH c') as [Hfol' Hfuel]. split.
  - by eapply follows_trans.
  - intros Hlt. apply Hfuel. lia.
Qed.

Lemma play_loop_ok fuel c : loop_ok show columns fuel c.
Proof.
  revert c. induction fuel as [|fuel IH]; intros c.
  { split; [apply follows_refl | simpl; lia]. }
  unfold loop_ok. cbn [play_loop].
  rewrite (io_bind_Done _ _ _ _ _ (print_game_run show c)).
  set (c1 := mkConsole (game c) (stdin c) (stdout c ++ game_lines show (game c))).
  assert (Hc1 : follows c c1).
  { split_and!; [apply legal_refl | by apply prefix_app_r | done]. }
  rewrite (io_bind_Done _ _ _ _ _ (engine_Ok has_won c1 _ (has_won_run (game c)))).
  destruct (forallb _ (tableau (game c))).
  { split; [|done]. eapply follows_trans; [exact Hc1|].
    split_and!; [apply legal_refl | by apply prefix_app_r | done]. }
  pose proof (has_lost_pure (game c)) as Hpure.
  destruct (has_lost (game c)) as [[lost|e] s'] eqn:Hlost; simpl in Hpure; subst s'.
  2:{ rewrite (io_bind_Fault _ _ _ _ _ (engine_Raise has_lost c1 _ Hlost)).
      split; [exact Hc1 | done]. }
  rewrite (io_bind_Done _ _ _ _ _ (engine_Ok has_lost c1 _ Hlost)).
  destruct lost.
  { split; [|done]. eapply follows_trans; [exact Hc1|].
    split_and!; [apply legal_refl | by apply prefix_app_r | done]. }
  destruct (stdin c) as [|command rest] eqn:Hin.
  { rewrite (io_bind_Fault _ _ _ _ _ (input_nil c1 eq_refl)). split; [exact Hc1 | done]. }
  rewrite (io_bind_Done _ _ _ _ _ (input_cons c1 _ _ eq_refl)). cbn [game stdout c1].
  set (c2 := mkConsole (game c) rest (stdout c ++ game_lines show (game c))).
  assert (Hc2 : follows c c2).
  { split_and!; [apply legal_refl | by apply prefix_app_r |].
    cbn. rewrite Hin. by apply suffix_cons_r. }
  assert (Hout : forall s' extra,
            follows c (mkConsole s' rest (stdout c2 ++ extra)) <->
            legal (game c) s').
  { intros s' extra. split; [by intros [? _]|]. intros Hl.
    split_and!; cbn; [done | | rewrite Hin; by apply suffix_cons_r].
    rewrite <- (assoc_L (++)). by apply prefix_app_r. }
  case_bool_decide as Hr.
  { rewrite (io_bind_Done _ _ _ _ _ (rules_run c2)).
    apply loop_continue; [exact IH | | simpl; lia].
    apply Hout, legal_refl. }
  case_bool_decide as Hmove.
  { destruct (play_move_cases columns command c2 Hmove)
      as (r & s' & Hrun & Hs' & Hr').
    assert (Hc3 : follows c (mkConsole s' (stdin c2) (stdout c2))).
    { rewrite <- (app_nil_r (stdout c2)). apply Hout.
      destruct Hs' as [-> | Hstep]; [apply legal_refl|].
      eapply legal_then; [apply legal_refl | exact Hstep]. }
    destruct Hr' as [-> | [e ->]].
    - rewrite (io_bind_Done _ _ _ _ _ Hrun).
      apply loop_continue; [exact IH | exact Hc3 | simpl; lia].
    - rewrite (io_bind_Fault _ _ _ _ _ Hrun). by split. }
  case_bool_decide as Hd.
  { rewrite (io_bind_Done _ _ _ _ _ (engine_deal_run c2)).
    apply loop_continue; [exact IH | | simpl; lia].
    rewrite <- (app_nil_r (stdout c2)). apply Hout.
    eapply legal_then; [apply legal_refl | apply legal_deal]. }
  case_bool_decide as Hq.
  { split; [exact Hc2 | done]. }
  rewrite (io_bind_Done _ _ _ _ _ (print_run _ c2)).
  apply loop_continue; [exact IH | | simpl; lia].
  apply Hout, legal_refl.
Qed.

End PlayLoop.

Lemma play_unfold shuffle show columns c :
  play shuffle show columns c =
    play_loop show columns (S (length (stdin c)))
      (mkConsole (shuffle_deck shuffle (game c)).2 (stdin c) (stdout c)).
Proof. reflexivity. Qed.

(** X2.  Whatever lines are typed, [play] changes the engine (after its
    opening [shuffle_deck]) only by legal steps, each a [deal_from_stock]
    or the [move_card] of a column whose last card [can_move] has just
    accepted; it only adds to the output and only consumes input from the
    front; and it comes to an end on every input: the loop never uses more
    turns than there are lines, plus one. *)
Theorem play_keeps_to_the_rules
    (shuffle : list Card -> list Card) (show : Card -> string)
    (columns : nat) (c : Console) :
  legal (shuffle_deck shuffle (game c)).2 (game (play shuffle show columns c).2) /\
  stdout c `prefix_of` stdout (play shuffle show columns c).2 /\
  stdin (play shuffle show columns c).2 `suffix_of` stdin c /\
  (play shuffle show columns c).1 <> Fault LoopFuel.
Proof.
  rewrite play_unfold.
  destruct (play_loop_ok show columns (S (length (stdin c)))
              (mkConsole (shuffle_deck shuffle (game c)).2 (stdin c) (stdout c)))
    as [(Hlegal & Hout & Hin) Hfuel].
  split_and!; [exact Hlegal | exact Hout | exact Hin | apply Hfuel; simpl; lia].
Qed.

Lemma not_r_if_allowed i command :
  allowed_moves !! i = Some command ->
  bool_decide (command = "r") = false /\
  bool_decide (command ∈ allowed_moves) = true.
Proof.
  intros Hi. split.
  - do 7 (destruct i as [|i]; [by injection Hi as <-|]). done.
  - apply bool_decide_eq_true_2. by eapply list_elem_of_lookup_2.
Qed.

Lemma play_move_empty columns command c i :
  allowed_moves !! i = Some command ->
  (i < columns)%nat ->
  tableau (game c) !! i = Some [] ->
  play_move columns command c = (Fault (EngineFault IndexError), c).
Proof.
  intros Hi Hlt Hcol. unfold play_move.
  rewrite (io_bind_Done _ _ _ _ _ (py_int_allowed i command c Hi)).
  replace (Z.of_nat i <? Z.of_nat columns) with true by (symmetry; apply Z.ltb_lt; lia).
  rewrite (io_bind_Done _ _ _ _ _ (engine_Ok get_tableau c _ eq_refl)).
  rewrite (io_bind_Done _ _ _ _ _
             (engine_lift_Ok _ c _ (py_getitem_nat _ _ _ Hcol))).
  by rewrite (io_bind_Fault _ _ _ _ _
                (engine_lift_Raise _ c IndexError (py_getitem_last []))).
Qed.

(** X1.  In [play], when the game is neither won nor lost and the line
    read names an existing column that is empty, the test before
    [move_card] reads the column's last card first and raises
    [IndexError]: the run ends there, the engine as it was, the board
    printed once. *)
Theorem play_empty_column_raises
    (shuffle : list Card -> list Card) (show : Card -> string)
    (columns : nat) (c : Console) (i : nat) (command : string)
    (rest : list string) :
  has_won (shuffle_deck shuffle (game c)).2 =
    (Ok false, (shuffle_deck shuffle (game c)).2) ->
  has_lost (shuffle_deck shuffle (game c)).2 =
    (Ok false, (shuffle_deck shuffle (game c)).2) ->
  stdin c = command :: rest ->
  allowed_moves !! i = Some command ->
  (i < columns)%nat ->
  tableau (game c) !! i = Some [] ->
  play shuffle show columns c =
    (Fault (EngineFault IndexError),
     mkConsole (shuffle_deck shuffle (game c)).2 rest
       (stdout c ++ game_lines show (shuffle_deck shuffle (game c)).2)).
Proof.
  intros Hwon Hlost Hin Hi Hlt Hcol. rewrite play_unfold.
  set (s0 := (shuffle_deck shuffle (game c)).2) in *.
  cbn [play_loop].
  rewrite (io_bind_Done _ _ _ _ _ (print_game_run show _)). cbn [game stdin stdout].
  set (c1 := mkConsole s0 (stdin c) (stdout c ++ game_lines show s0)).
  rewrite (io_bind_Done _ _ _ _ _ (engine_Ok has_won c1 false Hwon)).
  rewrite (io_bind_Done _ _ _ _ _ (engine_Ok has_lost c1 false Hlost)).
  rewrite (io_bind_Done _ _ _ _ _ (input_cons c1 _ _ Hin)). cbn [game stdin stdout c1].
  destruct (not_r_if_allowed i command Hi) as [-> ->].
  set (c2 := mkConsole s0 rest (stdout c ++ game_lines show s0)).
  by rewrite (io_bind_Fault _ _ _ _ _ (play_move_empty columns command c2 i Hi Hlt Hcol)).
Qed.

Lemma play_empty_column_raises_witness :
  let s := mkSolitaire []
             [[mkCard Clubs (Some 6)]; []; [mkCard Spades (Some 7)]]
             [mkCard Hearts (Some 7)] [mkCard Diamonds (Some 2)] in
  play reverse (fun _ => "card") 7 (mkConsole s ["1"; "q"] []) =
    (Fault (EngineFault IndexError),
     mkConsole s ["q"] (game_lines (fun _ => "card") s)).
Proof.
  intros s.
  apply (play_empty_column_raises reverse (fun _ => "card") 7
           (mkConsole s ["1"; "q"] []) 1 "1" ["q"]);
    [reflexivity | reflexivity | reflexivity | reflexivity | lia | reflexivity].
Defined.

(** X4.  [play] looks for the win before the loss and for both before it
    reads a line: with every column empty it prints the board and [You
    won.] and returns, also where [has_lost] is true as well; with the game
    lost and not won it prints the board and [You lost.] and returns.
    Either way no input is consumed and the engine is left as it was. *)
Theorem play_stops_when_over
    (shuffle : list Card -> list Card) (show : Card -> string)
    (columns : nat) (c : Console) :
  ((forall column, column ∈ tableau (game c) -> column = []) ->
   play shuffle show columns c =
     (Done tt,
      mkConsole (shuffle_deck shuffle (game c)).2 (stdin c)
        (stdout c ++ game_lines show (game c) ++ ["You won."]))) /\
  (has_won (game c) = (Ok false, game c) ->
   has_lost (shuffle_deck shuffle (game c)).2 =
     (Ok true, (shuffle_deck shuffle (game c)).2) ->
   play shuffle show columns c =
     (Done tt,
      mkConsole (shuffle_deck shuffle (game c)).2 (stdin c)
        (stdout c ++ game_lines show (game c) ++ ["You lost."]))).
Proof.
  rewrite play_unfold. set (s0 := (shuffle_deck shuffle (game c)).2).
  assert (Hlines : game_lines show s0 = game_lines show (game c)) by reflexivity.
  assert (Hwon0 : has_won s0 =
            (Ok (forallb (fun i => bool_decide (i = [])) (tableau (game c))), s0)).
  { apply (has_won_run s0). }
  split.
  - intros Hall. cbn [play_loop].
    rewrite (io_bind_Done _ _ _ _ _ (print_game_run show _)). cbn [game stdin stdout].
    set (c1 := mkConsole s0 (stdin c) (stdout c ++ game_lines show s0)).
    rewrite (proj2 (forallb_all_empty _) Hall) in Hwon0.
    rewrite (io_bind_Done _ _ _ _ _ (engine_Ok has_won c1 _ Hwon0)).
    rewrite print_run. unfold c1. cbn [game stdin stdout].
    rewrite Hlines, <- (assoc_L (++)). reflexivity.
  - intros Hwon Hlost. cbn [play_loop].
    rewrite (io_bind_Done _ _ _ _ _ (print_game_run show _)). cbn [game stdin stdout].
    set (c1 := mkConsole s0 (stdin c) (stdout c ++ game_lines show s0)).
    rewrite has_won_run in Hwon. injection Hwon as Hwon. rewrite Hwon in Hwon0.
    rewrite (io_bind_Done _ _ _ _ _ (engine_Ok has_won c1 _ Hwon0)).
    rewrite (io_bind_Done _ _ _ _ _ (engine_Ok has_lost c1 _ Hlost)).
    rewrite print_run. unfold c1. cbn [game stdin stdout].
    rewrite Hlines, <- (assoc_L (++)). reflexivity.
Qed.

Lemma play_stops_when_over_witness :
  let won := mkSolitaire [] [[]; []] [mkCard Hearts (Some 7)] [] in
  let lost := mkSolitaire [] [[mkCard Clubs (Some 5)]] [mkCard Hearts (Some 7)] [] in
  play reverse (fun _ => "card") 7 (mkConsole won ["d"] []) =
    (Done tt,
     mkConsole won ["d"] (game_lines (fun _ => "card") won ++ ["You won."])) /\
  play reverse (fun _ => "card") 7 (mkConsole lost ["d"] []) =
    (Done tt,
     mkConsole lost ["d"] (game_lines (fun _ => "card") lost ++ ["You lost."])).
Proof.
  intros won lost. split.
  - apply (proj1 (play_stops_when_over reverse (fun _ => "card") 7
                    (mkConsole won ["d"] []))).
    intros column Hin. vm_compute in Hin.
    repeat (apply elem_of_cons in Hin as [-> | Hin]; [reflexivity|]).
    by apply elem_of_nil in Hin.
  - apply (proj2 (play_stops_when_over reverse (fun _ => "card") 7
                    (mkConsole lost ["d"] []))); reflexivity.
Defined.

(** * More invariants of the engine *)

Lemma move_card_deck s col : deck (move_card col s).2 = deck s.
Proof.
  destruct (py_index (length (tableau s)) col) as [i|] eqn:Hi.
  - by destruct (move_card_in s col i Hi) as [[_ ->] | (column' & card & Hcol & ->)].
  - by rewrite move_card_out.
Qed.

Lemma deal_from_stock_deck s : deck (deal_from_stock s).2 = deck s.
Proof.
  destruct (snoc_cases (stock s)) as [Hk | (k & card & Hk)].
  - by rewrite deal_from_stock_empty.
  - by rewrite (deal_from_stock_snoc s k card Hk).
Qed.

Lemma legal_step_reachable shuffle cols n s s' :
  reachable shuffle cols n s -> legal_step s s' -> reachable shuffle cols n s'.
Proof.
  intros Hreach Hstep. inversion Hstep; subst; [by apply reach_deal | by apply reach_move].
Qed.

Lemma legal_reachable shuffle cols n s s' :
  reachable shuffle cols n s -> legal s s' -> reachable shuffle cols n s'.
Proof.
  intros Hreach Hlegal. induction Hlegal as [|s s1 s2 _ IH Hstep]; [done|].
  eapply legal_step_reachable; [by apply IH | done].
Qed.



(** X8.  A won game stays won: once every column is empty, [move_card]
    with any index leaves the state exactly as it is (returning, or raising
    for an index out of range), and after [deal_from_stock] every column is
    still empty, so [has_won] keeps returning [True]. *)
Theorem won_is_final (s : Solitaire) :
  has_won s = (Ok true, s) ->
  (forall col, (move_card col s).2 = s) /\
  tableau (deal_from_stock s).2 = tableau s /\
  has_won (deal_from_stock s).2 = (Ok true, (deal_from_stock s).2).
Proof.
  rewrite has_won_run. intros [= Hall].
  pose proof (proj1 (forallb_all_empty _) Hall) as Hempty.
  split_and!.
  - intros col. destruct (py_index (length (tableau s)) col) as [i|] eqn:Hi;
      [|by rewrite move_card_out].
    destruct (move_card_in s col i Hi) as [[_ ->] | (column' & card & Hcol & _)];
      [done|].
    apply list_elem_of_lookup_2, Hempty in Hcol. by destruct column'.
  - apply deal_from_stock_tableau.
  - by rewrite has_won_run, deal_from_stock_tableau, Hall.
Qed.

Lemma won_is_final_witness :
  let s := mkSolitaire [] [[]; []] [mkCard Hearts (Some 7)] [mkCard Clubs (Some 2)] in
  has_won s = (Ok true, s) /\
  move_card 1 s = (Ok tt, s) /\
  has_won (deal_from_stock s).2 = (Ok true, (deal_from_stock s).2).
Proof.
  intros s.
  assert (Hwon : has_won s = (Ok true, s)) by reflexivity.
  split; [exact Hwon|]. split; [reflexivity|].
  exact (proj2 (proj2 (won_is_final s Hwon))).
Defined.

(** X9.  Neither mutator can be repeated forever to effect: a call of
    [move_card] or [deal_from_stock] either leaves the state exactly as it
    was, or takes one card from the cards of tableau and stock together and
    adds one to the waste.  So at most as many calls change anything as
    there are cards in tableau and stock. *)
Theorem mutators_make_progress (s : Solitaire) :
  (forall col,
      (move_card col s).2 = s \/
      (S (length (concat (tableau (move_card col s).2))) = length (concat (tableau s)) /\
       stock (move_card col s).2 = stock s /\
       length (waste (move_card col s).2) = S (length (waste s)))) /\
  ((deal_from_stock s).2 = s \/
   (S (length (stock (deal_from_stock s).2)) = length (stock s) /\
    tableau (deal_from_stock s).2 = tableau s /\
    length (waste (deal_from_stock s).2) = S (length (waste s)))).
Proof.
  split.
  - intros col. destruct (py_index (length (tableau s)) col) as [i|] eqn:Hi;
      [|left; by rewrite move_card_out].
    destruct (move_card_in s col i Hi) as [[_ ->] | (column' & card & Hcol & ->)];
      [by left|].
    right. cbn [snd tableau stock waste]. split_and!.
    + by apply (concat_insert_snoc _ _ _ card).
    + done.
    + rewrite length_app. simpl. lia.
  - destruct (snoc_cases (stock s)) as [Hk | (k & card & Hk)].
    + left. by rewrite deal_from_stock_empty.
    + right. rewrite (deal_from_stock_snoc s k card Hk).
      cbn [snd tableau stock waste]. rewrite Hk, !length_app. simpl.
      split_and!; [lia | done | lia].
Qed.

(** X10.  [has_won] and [last_cards] agree: the game is won exactly when
    [last_cards()] is the empty list, and [last_cards()] never holds more
    cards than there are columns. *)
Theorem won_iff_no_last_cards (s : Solitaire) :
  exists (b : bool) (cards : list Card),
    has_won s = (Ok b, s) /\
    last_cards s = (Ok cards, s) /\
    (b = true <-> cards = []) /\
    (length cards <= length (tableau s))%nat.
Proof.
  exists (forallb (fun i => bool_decide (i = [])) (tableau s)), (omap last (tableau s)).
  split_and!; [apply has_won_run | apply last_cards_spec | |].
  - induction (tableau s) as [|column t IH]; [done|].
    cbn [forallb omap list_omap]. rewrite andb_true_iff, IH, bool_decide_eq_true.
    destruct (snoc_cases column) as [-> | (column' & card & ->)]; cbn [last].
    + tauto.
    + rewrite last_snoc. split; [|done]. intros [Hnil _]. by destruct column'.
  - induction (tableau s) as [|column t IH]; [done|].
    cbn [omap list_omap]. destruct (last column); simpl; lia.
Qed.

(** X12.  A lost game is a dead end for play by the rules: when
    [has_lost] returns [True], no sequence of legal steps (deals, and moves
    that [can_move] accepts) leads to any other state. *)
Theorem lost_is_dead_end (s s' : Solitaire) :
  has_lost s = (Ok true, s) -> legal s s' -> s' = s.
Proof.
  intros Hlost Hlegal. induction Hlegal as [|s s1 s2 _ IH Hstep]; [done|].
  specialize (IH Hlost). subst s1.
  rewrite has_lost_unfold in Hlost. case_bool_decide as Hk; [|discriminate].
  destruct Hstep as [s | s i column card Hcol Hlast Hmove].
  - by rewrite deal_from_stock_empty.
  - exfalso.
    pose proof (movable_cards_nil (omap last (tableau s)) s) as Hnil.
    pose proof (movable_cards_pure (omap last (tableau s)) s) as Hpure.
    destruct (movable_cards _ s) as [[l|e] s0]; simpl in Hpure; subst s0;
      [|discriminate].
    injection Hlost as Hl. apply len_zero_nil in Hl. subst l.
    assert (Hfalse : can_move card s = (Ok false, s)).
    { apply (proj1 Hnil eq_refl). apply elem_of_last_cards.
      exists column. split; [by eapply list_elem_of_lookup_2 | done]. }
    congruence.
Qed.

Lemma lost_is_dead_end_witness :
  let s := mkSolitaire [] [[mkCard Clubs (Some 5)]] [mkCard Hearts (Some 7)] [] in
  has_lost s = (Ok true, s) /\ (deal_from_stock s).2 = s.
Proof.
  intros s.
  assert (Hlost : has_lost s = (Ok true, s)) by reflexivity.
  split; [exact Hlost|].
  apply (lost_is_dead_end s (deal_from_stock s).2 Hlost).
  eapply legal_then; [apply legal_refl | apply legal_deal].
Defined.

Lemma reachable_deck shuffle cols n s : reachable shuffle cols n s -> deck s = [].
Proof.
  induction 1 as [s Hsetup | s col _ IH | s _ IH].
  - by apply setup_inv in Hsetup as [_ ->].
  - by rewrite move_card_deck.
  - by rewrite deal_from_stock_deck.
Qed.

(** X11.  The stock is dealt backwards: what the constructor left in the
    deck after tableau and waste is the stock, and [deal_from_stock] hands
    it to the waste from the end, so that the card the deck gave out last
    is the first to be dealt.  After as many deals as the stock's tail [k2]
    has cards, the waste is the constructor's card followed by [k2]
    reversed. *)
Theorem stock_is_dealt_backwards
    (shuffle : list Card -> list Card) (columns cards_in_column : nat)
    (s : Solitaire) (k1 k2 : list Card) :
  setup shuffle columns cards_in_column = (Ok tt, s) ->
  drop (S (columns * cards_in_column)) (shuffle new_deck) = k1 ++ k2 ->
  repeat_call (length k2) deal_from_stock s =
    (Ok tt,
     mkSolitaire [] (tableau s)
       (take 1 (drop (columns * cards_in_column) (shuffle new_deck)) ++ reverse k2)
       k1).
Proof.
  intros Hsetup Hsplit. apply setup_inv in Hsetup as [_ ->].
  exact (deal_repeat_split (mkSolitaire [] _ _ _) k1 k2 Hsplit).
Qed.

Lemma stock_is_dealt_backwards_witness :
  exists s,
    setup reverse 7 5 = (Ok tt, s) /\
    repeat_call 2 deal_from_stock s =
      (Ok tt,
       mkSolitaire [] (tableau s)
         [mkCard Hearts (Some 4); mkCard Spades (Some 1); mkCard Spades (Some 2)]
         (take 14 (drop 36 (reverse new_deck)))).
Proof.
  exists (setup reverse 7 5).2.
  assert (Hsetup : setup reverse 7 5 = (Ok tt, (setup reverse 7 5).2)) by (by vm_compute).
  split; [exact Hsetup|].
  exact (stock_is_dealt_backwards reverse 7 5 _
           (take 14 (drop 36 (reverse new_deck)))
           [mkCard Spades (Some 2); mkCard Spades (Some 1)] Hsetup eq_refl).
Defined.

Section ShuffledPlay.

Variable shuffle : list Card -> list Card.
Hypothesis shuffle_perm : forall d, shuffle d ≡ₚ d.

Lemma shuffle_nil : shuffle [] = [].
Proof. apply Permutation_nil. symmetry. apply shuffle_perm. Qed.

Lemma reachable_all_cards cols n s :
  reachable shuffle cols n s -> all_cards s ≡ₚ new_deck.
Proof.
  induction 1 as [s Hsetup | s col _ IH | s _ IH].
  - apply setup_inv in Hsetup as [Hlt ->]. unfold all_cards.
    cbn [tableau waste stock]. rewrite chunks_concat.
    rewrite (Permutation_app_comm (drop _ _)), (assoc_L (++)), take_take_drop.
    change (cols * n + 1)%nat with (cols * n + 1)%nat.
    replace (S (cols * n)) with (cols * n + 1)%nat by lia.
    by rewrite take_drop.
  - by rewrite move_card_relocates.
  - by rewrite deal_from_stock_relocates.
Qed.

(** X7.  In every state reached from the constructor the cards of the
    tableau, the stock and the waste are exactly the cards of a new deck,
    each of them once: no card is ever lost, duplicated or brought in. *)
Theorem cards_are_the_deck (columns cards_in_column : nat) (s : Solitaire) :
  reachable shuffle columns cards_in_column s ->
  all_cards s ≡ₚ new_deck /\
  NoDup (all_cards s) /\
  (forall card, card ∈ all_cards s <-> card ∈ new_deck).
Proof.
  intros Hreach. pose proof (reachable_all_cards _ _ _ Hreach) as Hperm.
  split_and!.
  - exact Hperm.
  - rewrite Hperm. apply new_deck_NoDup.
  - intros card. by rewrite Hperm.
Qed.

(** X3.  [play] keeps the game within the states of play: started on a
    state reached from the constructor, it ends, whatever is typed and
    however it ends, on a state reached from the constructor, whose cards
    are still the 52 of the deck, each once, and whose waste is not
    empty. *)
Theorem play_stays_reachable
    (show : Card -> string) (columns cards_in_column : nat) (c : Console) :
  reachable shuffle columns cards_in_column (game c) ->
  reachable shuffle columns cards_in_column
    (game (play shuffle show columns c).2) /\
  total_cards (game (play shuffle show columns c).2) = 52%nat /\
  NoDup (all_cards (game (play shuffle show columns c).2)) /\
  (1 <= length (waste (game (play shuffle show columns c).2)))%nat.
Proof.
  intros Hreach.
  assert (Hstart : (shuffle_deck shuffle (game c)).2 = game c).
  { unfold shuffle_deck. run. rewrite (reachable_deck _ _ _ _ Hreach), shuffle_nil.
    rewrite <- (reachable_deck _ _ _ _ Hreach). by destruct (game c). }
  rewrite play_unfold, Hstart.
  destruct (play_loop_ok show columns (S (length (stdin c)))
              (mkConsole (game c) (stdin c) (stdout c))) as [(Hlegal & _ & _) _].
  cbn [game] in Hlegal.
  pose proof (legal_reachable _ _ _ _ _ Hreach Hlegal) as Hend.
  pose proof (reachable_all_cards _ _ _ Hend) as Hperm.
  split_and!.
  - exact Hend.
  - transitivity (length (all_cards (game (play_loop show columns
                    (S (length (stdin c)))
                    (mkConsole (game c) (stdin c) (stdout c))).2))).
    + unfold total_cards, all_cards. rewrite !length_app. lia.
    + by rewrite Hperm.
  - rewrite Hperm. apply new_deck_NoDup.
  - by eapply reachable_waste.
Qed.

End ShuffledPlay.

Lemma cards_are_the_deck_witness :
  let s := (move_card 0 (setup reverse 7 5).2).2 in
  (forall d : list Card, reverse d ≡ₚ d) /\
  reachable reverse 7 5 s /\
  NoDup (all_cards s).
Proof.
  intros s.
  assert (Hreach : reachable reverse 7 5 s).
  { apply reach_move, reach_setup. by vm_compute. }
  split; [exact reverse_is_shuffle|]. split; [exact Hreach|].
  exact (proj1 (proj2 (cards_are_the_deck reverse reverse_is_shuffle 7 5 s Hreach))).
Defined.

Lemma play_stays_reachable_witness :
  let c := mkConsole (setup reverse 7 5).2 ["d"; "6"; "x"; "q"] [] in
  (forall d : list Card, reverse d ≡ₚ d) /\
  reachable reverse 7 5 (game c) /\
  reachable reverse 7 5 (game (play reverse (fun _ => "card") 7 c).2).
Proof.
  intros c.
  assert (Hreach : reachable reverse 7 5 (game c)).
  { apply reach_setup. by vm_compute. }
  split; [exact reverse_is_shuffle|]. split; [exact Hreach|].
  exact (proj1 (play_stays_reachable reverse reverse_is_shuffle
                  (fun _ => "card") 7 5 c Hreach)).
Defined.

Lemma play_keeps_to_the_rules_witness :
  let c := mkConsole seven_up ["0"; "3"; "d"; "q"] [] in
  legal seven_up (game (play reverse (fun _ => "card") 7 c).2) /\
  (play reverse (fun _ => "card") 7 c).1 = Done tt /\
  waste (game (play reverse (fun _ => "card") 7 c).2) =
    [mkCard Hearts (Some 7); mkCard Spades (Some 8); mkCard Diamonds (Some 2)].
Proof.
  intros c. split; [|split; reflexivity].
  exact (proj1 (play_keeps_to_the_rules reverse (fun _ => "card") 7 c)).
Defined.
